(** * _TokenizingPATCHER: the hunk patch engine of [app_v5.0.py]

    A shallow embedding of the patching logic of
    [src/app_v5.0.py] -- [StructuredLine], [detect_newline],
    [split_lines_preserve], [locate_hunk], [check_overlaps] and
    [apply_patch_text] -- and the properties of it that the specification
    states.

    Python values are modelled as follows.
    - A [str] is a list of Unicode code points ([N]); [str.strip()] without
      argument removes the code points on which [str.isspace] holds.
    - A list is a [list]; [l[i]] is stdpp's lookup [l !! i] and raises
      [IndexError] out of range; the in-place update of an object held by a
      list is stdpp's insert [<[i:=x]> l].
    - Exceptions are the left summand of [Res]; the body of
      [apply_patch_text] runs in a state and exception monad [M] whose state
      is the mutable list [file_lines].
    - The parsed JSON patch is a [pyval].

    Two computations of the window code are modelled besides: the version
    arithmetic of [_compute_default_version] ([app_v2.0.py]) and the
    cleaning of the model's answer in [_handle_success] ([app_v3.0.py],
    [app_v5.0.py]); what they take from the operating system and from the
    Unicode database is a parameter. *)

From Stdlib Require Import NArith ZArith Ascii String Lia.
From Stdlib Require Import Sorting.Permutation Sorting.Sorted.
From stdpp Require Import base list.

Local Open Scope nat_scope.

(** ** Strings *)

Abbreviation char := N (only parsing).
Abbreviation pystr := (list N) (only parsing).

Definition LF : char := 10%N.
Definition CR : char := 13%N.
Definition SPACE : char := 32%N.
Definition TAB : char := 9%N.

(** A literal of the source, as code points. *)
Definition lit (s : string) : pystr :=
  map N_of_ascii (list_ascii_of_string s).

Fixpoint starts_with (sub s : pystr) : bool :=
  match sub, s with
  | [], _ => true
  | a :: sub', b :: s' => (a =? b)%N && starts_with sub' s'
  | _ :: _, [] => false
  end.

(** [sub in s] *)
Fixpoint str_contains (sub s : pystr) : bool :=
  starts_with sub s ||
  match s with
  | [] => false
  | _ :: s' => str_contains sub s'
  end.

(** [s.split(sep)] for a non-empty [sep]: a left-to-right scan for
    non-overlapping occurrences of [sep].  [skip] counts the characters of
    an occurrence that are still to be passed over, [cur] is the piece
    being collected. *)
Fixpoint split_go (sep : pystr) (skip : nat) (cur s : pystr) : list pystr :=
  match s with
  | [] => [cur]
  | c :: s' =>
      match skip with
      | S k => split_go sep k cur s'
      | O =>
          if starts_with sep s
          then cur :: split_go sep (length sep - 1) [] s'
          else split_go sep 0 (cur ++ [c]) s'
      end
  end.

Definition str_split (s sep : pystr) : list pystr := split_go sep 0 [] s.

(** [sep.join(l)] *)
Fixpoint str_join (sep : pystr) (l : list pystr) : pystr :=
  match l with
  | [] => []
  | [x] => x
  | x :: rest => x ++ sep ++ str_join sep rest
  end.

(** [re.split] on the pattern CR LF | LF of the source: at every position
    the two-character alternative is tried before the single line feed. *)
Fixpoint re_split_go (cur s : pystr) : list pystr :=
  match s with
  | [] => [cur]
  | c :: s1 =>
      if (c =? CR)%N then
        match s1 with
        | d :: s2 =>
            if (d =? LF)%N then cur :: re_split_go [] s2
            else re_split_go (cur ++ [c]) s1
        | [] => re_split_go (cur ++ [c]) s1
        end
      else if (c =? LF)%N then cur :: re_split_go [] s1
      else re_split_go (cur ++ [c]) s1
  end.

Definition re_split_newlines (s : pystr) : list pystr := re_split_go [] s.

(** [str.isspace] on one code point (CPython's [_PyUnicode_IsWhitespace]). *)
Definition py_isspace (c : char) : bool :=
  ((9 <=? c) && (c <=? 13) || (28 <=? c) && (c <=? 32)
   || (c =? 133) || (c =? 160) || (c =? 5760)
   || (8192 <=? c) && (c <=? 8202)
   || (c =? 8232) || (c =? 8233) || (c =? 8239) || (c =? 8287)
   || (c =? 12288))%N.

Fixpoint lstrip (s : pystr) : pystr :=
  match s with
  | c :: s' => if py_isspace c then lstrip s' else s
  | [] => []
  end.

(** [s.strip()] *)
Definition strip (s : pystr) : pystr := rev (lstrip (rev (lstrip s))).

(** ** The regular expression of [StructuredLine] *)

(** The pattern of [StructuredLine.__init__] has three groups: group 1 is
    the anchor ^ and a greedy star of the class space/tab, group 2 a lazy
    star of the dot, group 3 a greedy star of the class space/tab and the
    anchor $.  [re.match] is run the way Python's backtracking matcher runs
    it.  A starred class followed by the rest of the pattern [k] is a
    combinator: the greedy star tries the longest run first, the lazy star
    the shortest. *)

Definition is_blank (c : char) : bool := ((c =? SPACE) || (c =? TAB))%N.

(** [.] without [re.DOTALL]: any character but the line feed. *)
Definition is_dot (c : char) : bool := negb (c =? LF)%N.

(** [$] without [re.MULTILINE]: the end of the string, or just before a line
    feed that is the last character. *)
Definition at_dollar (rest : pystr) : option unit :=
  match rest with
  | [] => Some tt
  | [c] => if (c =? LF)%N then Some tt else None
  | _ => None
  end.

Section Star.
Context {A : Type} (p : char -> bool) (k : pystr -> option A).

Definition star_stop (s : pystr) : option (pystr * A) :=
  match k s with
  | Some r => Some ([], r)
  | None => None
  end.

Fixpoint greedy_star (s : pystr) : option (pystr * A) :=
  match s with
  | c :: s' =>
      if p c then
        match greedy_star s' with
        | Some (m, r) => Some (c :: m, r)
        | None => star_stop s
        end
      else star_stop s
  | [] => star_stop s
  end.

Fixpoint lazy_star (s : pystr) : option (pystr * A) :=
  match k s with
  | Some r => Some ([], r)
  | None =>
      match s with
      | c :: s' =>
          if p c then
            match lazy_star s' with
            | Some (m, r) => Some (c :: m, r)
            | None => None
            end
          else None
      | [] => None
      end
  end.
End Star.

(** The three groups of the match, or [None] when the pattern fails. *)
Definition re_match_line (line : pystr) : option (pystr * pystr * pystr) :=
  match greedy_star is_blank
          (lazy_star is_dot (greedy_star is_blank at_dollar)) line with
  | Some (g1, (g2, (g3, _))) => Some (g1, g2, g3)
  | None => None
  end.

(** ** [class StructuredLine] *)

Record StructuredLine : Type := mkStructuredLine {
  original_line : pystr;
  indent : pystr;
  content : pystr;
  trailing : pystr
}.

(** [StructuredLine.__init__] *)
Definition StructuredLine_init (line : pystr) : StructuredLine :=
  match re_match_line line with
  | Some (g1, g2, g3) => mkStructuredLine line g1 g2 g3
  | None => mkStructuredLine line [] line []
  end.

Definition reconstruct (l : StructuredLine) : pystr :=
  indent l ++ content l ++ trailing l.

(** [orig.content = ...] and [rl.indent = ...] *)
Definition set_content (l : StructuredLine) (c : pystr) : StructuredLine :=
  mkStructuredLine (original_line l) (indent l) c (trailing l).

Definition set_indent (l : StructuredLine) (i : pystr) : StructuredLine :=
  mkStructuredLine (original_line l) i (content l) (trailing l).

Definition detect_newline (text : pystr) : pystr :=
  if str_contains [CR; LF] text then [CR; LF] else [LF].

Definition split_lines_preserve (text newline : pystr) : list pystr :=
  match text with
  | [] => [[]]
  | _ => str_split text newline
  end.

(** ** Exceptions *)

(** The messages of [PatchError], with the hunk number where the source
    formats one into the text. *)
Inductive patch_msg : Type :=
  | NoHunksArray                 (* Patch JSON must contain a 'hunks' array. *)
  | HunkIncomplete (num : nat)   (* Hunk {num} incomplete. *)
  | AmbiguousStrict (num : nat)  (* Ambiguous strict match hunk {num}. *)
  | AmbiguousFloating (num : nat) (* Ambiguous floating match hunk {num}. *)
  | HunkNotFound (num : nat)     (* Hunk {num} not found. *)
  | OverlappingHunks.            (* Overlapping hunks. *)

Inductive exn : Type :=
  | PatchError (msg : patch_msg)
  | IndexError
  | AttributeError.

Definition Res (A : Type) : Type := (exn + A)%type.

Definition res_bind {A B : Type} (m : Res A) (k : A -> Res B) : Res B :=
  match m with
  | inl e => inl e
  | inr a => k a
  end.

Declare Scope res_scope.
Delimit Scope res_scope with res.
Notation "'do' x <- m ; k" := (res_bind m (fun x => k))
  (at level 10, x name, m at level 100, k at level 200) : res_scope.

(** [l[i]] *)
Definition py_index {A : Type} (l : list A) (i : nat) : Res A :=
  match l !! i with
  | Some x => inr x
  | None => inl IndexError
  end.

(** ** [locate_hunk] *)

(** The comparison of one position of the window: [f_cont != s_cont]. *)
Definition contents_differ (floating : bool) (f_line s_line : StructuredLine)
  : bool :=
  let f_cont := content f_line in
  let s_cont := content s_line in
  let '(f_cont, s_cont) :=
    if floating then (strip f_cont, strip s_cont) else (f_cont, s_cont) in
  negb (bool_decide (f_cont = s_cont)).

(** The inner loop over [enumerate(search_lines)], from [offset] on; the
    result is the value of [ok] when the loop ends. *)
Fixpoint window_ok (file_lines : list StructuredLine) (floating : bool)
    (start offset : nat) (search_lines : list StructuredLine) : Res bool :=
  match search_lines with
  | [] => inr true
  | s_line :: rest =>
      (do f_line <- py_index file_lines (start + offset);
       if contents_differ floating f_line s_line then inr false
       else window_ok file_lines floating start (S offset) rest)%res
  end.

(** The outer loop over [range(max_start + 1)]. *)
Fixpoint scan_starts (file_lines search_lines : list StructuredLine)
    (floating : bool) (starts matches : list nat) : Res (list nat) :=
  match starts with
  | [] => inr matches
  | start :: rest =>
      (do ok <- window_ok file_lines floating start 0 search_lines;
       scan_starts file_lines search_lines floating rest
         (if ok : bool then matches ++ [start] else matches))%res
  end.

Definition locate_hunk (file_lines search_lines : list StructuredLine)
    (floating : bool) : Res (list nat) :=
  let matches := [] in
  match search_lines with
  | [] => inr matches
  | _ =>
      let window := length search_lines in
      let max_start := (Z.of_nat (length file_lines) - Z.of_nat window)%Z in
      if (max_start <? 0)%Z then inr matches
      else scan_starts file_lines search_lines floating
             (seq 0 (Z.to_nat (max_start + 1))) matches
  end.

(** ** Applications and [check_overlaps] *)

(** The dict with the keys start, end and replace_lines. *)
Record application : Type := mkApplication {
  start : nat;
  end_ : nat;
  replace_lines : list StructuredLine
}.

(** [sorted] is stable; it is modelled as a stable insertion sort.
    [lt b a] says that [b] has to come strictly before [a]; an element is
    inserted in front of a sorted suffix of elements that followed it in
    the input, so it stops at the first one that need not precede it. *)
Section Sorted.
Context {A : Type} (lt : A -> A -> bool).

Fixpoint sort_insert (a : A) (l : list A) : list A :=
  match l with
  | [] => [a]
  | b :: l' => if lt b a then b :: sort_insert a l' else a :: l
  end.

Definition py_sorted (l : list A) : list A := foldr sort_insert [] l.
End Sorted.

(** [sorted(applications, key=lambda a: a["start"])] *)
Definition sorted_by_start (l : list application) : list application :=
  py_sorted (fun b a => start b <? start a) l.

(** [sorted(applications, key=lambda a: a["start"], reverse=True)] *)
Definition sorted_by_start_reverse (l : list application) : list application :=
  py_sorted (fun b a => start a <? start b) l.

Definition check_overlaps (applications : list application) : bool :=
  match applications with
  | [] => false
  | _ =>
      let sorted_apps := sorted_by_start applications in
      existsb (fun '(prev, cur) => start cur <? end_ prev)
        (zip sorted_apps (tail sorted_apps))
  end.

(** ** The parsed patch *)

(** The values [json.loads] produces (a float behaves like [PyInt] here: it
    is neither a [str], a [list] nor a [dict]).  A [dict] is the list of
    its items; its keys are pairwise different. *)
#[warnings="-register-all"]
Inductive pyval : Type :=
  | PyNone
  | PyBool (b : bool)
  | PyInt (z : Z)
  | PyStr (s : pystr)
  | PyList (l : list pyval)
  | PyDict (items : list (pystr * pyval)).

Fixpoint dict_get (items : list (pystr * pyval)) (key : pystr) : pyval :=
  match items with
  | [] => PyNone
  | (k, v) :: rest => if bool_decide (k = key) then v else dict_get rest key
  end.

(** [v.get(key)]: only a [dict] has the method. *)
Definition py_get (v : pyval) (key : pystr) : Res pyval :=
  match v with
  | PyDict items => inr (dict_get items key)
  | _ => inl AttributeError
  end.

(** ** [apply_patch_text] *)

(** [re.split] of a block and the tokenization of its lines. *)
Definition block_lines (blk : pystr) : list StructuredLine :=
  map StructuredLine_init (re_split_newlines blk).

(** The body of the first loop for one hunk, up to the dict that is
    appended to [applications]. *)
Definition resolve_hunk (file_lines : list StructuredLine) (num : nat)
    (h : pyval) : Res application :=
  (do s_blk <- py_get h (lit "search_block");
   do r_blk <- py_get h (lit "replace_block");
   match s_blk, r_blk with
   | PyStr s_blk, PyStr r_blk =>
       let s_lines := block_lines s_blk in
       let r_lines := block_lines r_blk in
       do matches <- locate_hunk file_lines s_lines false;
       if 1 <? length matches then inl (PatchError (AmbiguousStrict num))
       else if length matches =? 1 then
         do m <- py_index matches 0;
         inr (mkApplication m (m + length s_lines) r_lines)
       else
         do matches <- locate_hunk file_lines s_lines true;
         if 1 <? length matches then inl (PatchError (AmbiguousFloating num))
         else if length matches =? 0 then inl (PatchError (HunkNotFound num))
         else
           do m <- py_index matches 0;
           inr (mkApplication m (m + length s_lines) r_lines)
   | _, _ => inl (PatchError (HunkIncomplete num))
   end)%res.

(** The state and exception monad of the body: the state is the list
    object bound to [file_lines]. *)
Definition M (A : Type) : Type :=
  list StructuredLine -> Res A * list StructuredLine.

Definition m_ret {A : Type} (a : A) : M A := fun st => (inr a, st).
Definition m_raise {A : Type} (e : exn) : M A := fun st => (inl e, st).
Definition m_lift {A : Type} (r : Res A) : M A := fun st => (r, st).
Definition m_get : M (list StructuredLine) := fun st => (inr st, st).
Definition m_put (l : list StructuredLine) : M unit := fun _ => (inr tt, l).
Definition m_bind {A B : Type} (m : M A) (k : A -> M B) : M B :=
  fun st =>
    match m st with
    | (inr a, st') => k a st'
    | (inl e, st') => (inl e, st')
    end.

Declare Scope m_scope.
Delimit Scope m_scope with M.
Notation "'do' x <- m ; k" := (m_bind m (fun x => k))
  (at level 10, x name, m at level 100, k at level 200) : m_scope.
Notation "m ;; k" := (m_bind m (fun _ => k))
  (at level 100, k at level 200, right associativity) : m_scope.

(** The first loop, from the hunk with index [idx] on. *)
Fixpoint resolve_hunks (hunks : list pyval) (idx : nat)
    (applications : list application) : M (list application) :=
  match hunks with
  | [] => m_ret applications
  | h :: rest =>
      (do file_lines <- m_get;
       do app <- m_lift (resolve_hunk file_lines (idx + 1) h);
       resolve_hunks rest (S idx) (applications ++ [app]))%M
  end.

(** The loop over [enumerate(r_lines)], from position [i] on.  The
    assignment to [orig.content] changes the object that [file_lines]
    holds at [start + i]. *)
Fixpoint build_new_lines (start end_ : nat) (indent : pystr) (i : nat)
    (r_lines new_l : list StructuredLine) : M (list StructuredLine) :=
  match r_lines with
  | [] => m_ret new_l
  | rl :: rest =>
      if start + i <? end_ then
        (do file_lines <- m_get;
         do orig <- m_lift (py_index file_lines (start + i));
         let orig := set_content orig (content rl) in
         m_put (<[start + i := orig]> file_lines);;
         build_new_lines start end_ indent (S i) rest (new_l ++ [orig]))%M
      else
        let rl := set_indent rl indent in
        build_new_lines start end_ indent (S i) rest (new_l ++ [rl])
  end.

(** The body of the second loop.  The slice assignment clamps its bounds
    to the list. *)
Definition apply_application (app : application) : M unit :=
  (let start := start app in
   let end_ := end_ app in
   let r_lines := replace_lines app in
   do file_lines <- m_get;
   do indent <-
     (if start <? length file_lines
      then do l <- m_lift (py_index file_lines start); m_ret (indent l)
      else m_ret []);
   do new_l <- build_new_lines start end_ indent 0 r_lines [];
   do file_lines <- m_get;
   m_put (take start file_lines ++ new_l ++ drop (start `max` end_) file_lines))%M.

Fixpoint apply_applications (apps : list application) : M unit :=
  match apps with
  | [] => m_ret tt
  | app :: rest => (apply_application app;; apply_applications rest)%M
  end.

Definition apply_patch_body (newline : pystr) (patch_obj : pyval) : M pystr :=
  (do hunks <- m_lift (py_get patch_obj (lit "hunks"));
   match hunks with
   | PyList hunks =>
       do applications <- resolve_hunks hunks 0 [];
       if check_overlaps applications
       then m_raise (PatchError OverlappingHunks)
       else
         apply_applications (sorted_by_start_reverse applications);;
         do file_lines <- m_get;
         m_ret (str_join newline (map reconstruct file_lines))
   | _ => m_raise (PatchError NoHunksArray)
   end)%M.

(** The tokenized buffer [file_lines] that the body starts from. *)
Definition buffer_lines (file_text : pystr) : list StructuredLine :=
  map StructuredLine_init
    (split_lines_preserve file_text (detect_newline file_text)).

(** [apply_patch_text] with the final state of [file_lines]. *)
Definition run_apply_patch_text (file_text : pystr) (patch_obj : pyval)
  : Res pystr * list StructuredLine :=
  let newline := detect_newline file_text in
  apply_patch_body newline patch_obj (buffer_lines file_text).

Definition apply_patch_text (file_text : pystr) (patch_obj : pyval)
  : Res pystr :=
  fst (run_apply_patch_text file_text patch_obj).

(** Patches for the examples. *)
Definition hunk (s_blk r_blk : pystr) : pyval :=
  PyDict [(lit "search_block", PyStr s_blk); (lit "replace_block", PyStr r_blk)].

Definition patch (hunks : list pyval) : pyval :=
  PyDict [(lit "hunks", PyList hunks)].

(** * Notions used in the statements *)

(** A line that consists of a part without line feed and one final line
    feed: the case in which the anchor $ matches in front of the line
    feed. *)
Definition lone_final_newline (line : pystr) : bool :=
  match rev line with
  | c :: body => (c =? LF)%N && forallb is_dot body
  | [] => false
  end.

(** Whether the search lines match the file lines from [pos] on. *)
Fixpoint window_matches (file_lines : list StructuredLine) (floating : bool)
    (pos : nat) (search_lines : list StructuredLine) : bool :=
  match search_lines with
  | [] => true
  | s_line :: rest =>
      match file_lines !! pos with
      | Some f_line =>
          negb (contents_differ floating f_line s_line)
          && window_matches file_lines floating (S pos) rest
      | None => false
      end
  end.

(** The start indices [locate_hunk] returns. *)
Definition located (file_lines search_lines : list StructuredLine)
    (floating : bool) : list nat :=
  match search_lines with
  | [] => []
  | _ =>
      if length file_lines <? length search_lines then []
      else List.filter (fun st => window_matches file_lines floating st search_lines)
             (seq 0 (length file_lines - length search_lines + 1))
  end.

(** The placement of a hunk at the match [m]. *)
Definition placement (s_blk r_blk : pystr) (m : nat) : application :=
  mkApplication m (m + length (block_lines s_blk)) (block_lines r_blk).

(** The ranges of two placements share a line index. *)
Definition ranges_intersect (a b : application) : Prop :=
  exists k, (start a <= k < end_ a) /\ (start b <= k < end_ b).

(** Two placements at different positions of the list intersect. *)
Definition some_pair_overlaps (apps : list application) : Prop :=
  exists i j a b,
    i <> j /\ apps !! i = Some a /\ apps !! j = Some b /\ ranges_intersect a b.

(** The same, by recursion on the list. *)
Inductive has_overlap : list application -> Prop :=
  | overlap_here a l b :
      b ∈ l -> ranges_intersect a b -> has_overlap (a :: l)
  | overlap_later a l : has_overlap l -> has_overlap (a :: l).

(** The loop of [check_overlaps] over the adjacent pairs. *)
Definition adjacent_overlap (l : list application) : bool :=
  existsb (fun '(prev, cur) => start cur <? end_ prev) (zip l (tail l)).

(** The line the loop appends to [new_l] at position [i], from the state
    [st] of [file_lines] in front of the loop. *)
Definition new_line (st : list StructuredLine) (start end_ : nat)
    (indent : pystr) (i : nat) (rl : StructuredLine) : StructuredLine :=
  if start + i <? end_
  then from_option (fun orig => set_content orig (content rl)) rl
         (st !! (start + i))
  else set_indent rl indent.

(** The lines the loop appends for the replacement lines [r_lines], the
    first of which has position [i]. *)
Fixpoint new_lines_from (st : list StructuredLine) (start end_ : nat)
    (indent : pystr) (i : nat) (r_lines : list StructuredLine)
  : list StructuredLine :=
  match r_lines with
  | [] => []
  | rl :: rest =>
      new_line st start end_ indent i rl
      :: new_lines_from st start end_ indent (S i) rest
  end.

(** The new lines of one placement, from the list in front of it. *)
Definition spliced_lines (st : list StructuredLine) (app : application)
  : list StructuredLine :=
  new_lines_from st (start app) (end_ app)
    (from_option indent [] (st !! start app)) 0 (replace_lines app).

(** The second loop over the placements [apps] from the list [st]: at every
    iteration [start] is a valid index of the current list (the indent is
    read from the list, not taken from the fallback), the range ends inside
    the current list, and the iteration raises nothing. *)
Fixpoint loop_in_bounds (apps : list application) (st : list StructuredLine)
  : Prop :=
  match apps with
  | [] => True
  | app :: rest =>
      start app < length st /\ end_ app <= length st /\
      exists st', apply_application app st = (inr tt, st') /\
                  loop_in_bounds rest st'
  end.

(** The second loop over the placements [apps] from the list [st]: at every
    iteration the current list still has the lines of the original
    [buffer] up to the end of the placement, and the iteration raises
    nothing. *)
Fixpoint loop_reads_buffer (buffer : list StructuredLine)
    (apps : list application) (st : list StructuredLine) : Prop :=
  match apps with
  | [] => True
  | app :: rest =>
      take (end_ app) st = take (end_ app) buffer /\
      exists st', apply_application app st = (inr tt, st') /\
                  loop_reads_buffer buffer rest st'
  end.

(** The first loop as a function of the list it reads. *)
Fixpoint resolve_all (file_lines : list StructuredLine) (hunks : list pyval)
    (idx : nat) (applications : list application)
  : Res (list application) :=
  match hunks with
  | [] => inr applications
  | h :: rest =>
      (do app <- resolve_hunk file_lines (idx + 1) h;
       resolve_all file_lines rest (S idx) (applications ++ [app]))%res
  end.

(** Every placement is the one its own hunk resolves to. *)
Definition placements_of (file_lines : list StructuredLine)
    (hunks : list pyval) (idx : nat) (apps : list application) : Prop :=
  length apps = length hunks /\
  forall k h, hunks !! k = Some h ->
    exists a, apps !! k = Some a /\
              resolve_hunk file_lines (idx + k + 1) h = inr a.

(** [isinstance(v, str)] *)
Definition is_str (v : pyval) : bool :=
  match v with
  | PyStr _ => true
  | _ => false
  end.

(** A hunk that is a dict and lacks a string [search_block] or a string
    [replace_block]. *)
Definition hunk_incomplete (h : pyval) : Prop :=
  exists items,
    h = PyDict items /\
    is_str (dict_get items (lit "search_block"))
    && is_str (dict_get items (lit "replace_block")) = false.

(** The maximal run of whitespace at the start of a string. *)
Fixpoint ws_run (s : pystr) : pystr :=
  match s with
  | c :: s' => if py_isspace c then c :: ws_run s' else []
  | [] => []
  end.

(** The whitespace at the two ends of a string is made of spaces and tabs
    only. *)
Definition edges_blank (s : pystr) : bool :=
  forallb is_blank (ws_run s) && forallb is_blank (ws_run (rev s)).

(** A hunk whose two blocks are the same string. *)
Definition same_blocks (h : pyval) (blk : pystr) : Prop :=
  py_get h (lit "search_block") = inr (PyStr blk) /\
  py_get h (lit "replace_block") = inr (PyStr blk).

(** The maximal run of spaces and tabs at the start of a string, and the
    string without it. *)
Fixpoint blank_run (s : pystr) : pystr :=
  match s with
  | c :: s' => if is_blank c then c :: blank_run s' else []
  | [] => []
  end.

Fixpoint drop_blank (s : pystr) : pystr :=
  match s with
  | c :: s' => if is_blank c then drop_blank s' else s
  | [] => []
  end.

(** The three parts of a line computed without backtracking: the leading
    run of spaces and tabs, then, of what is left, the part in front of its
    trailing run of spaces and tabs, and that trailing run. *)
Definition tokenize_direct (line : pystr) : pystr * pystr * pystr :=
  let rest := drop_blank line in
  (blank_run line, rev (drop_blank (rev rest)), rev (blank_run (rev rest))).

(** Every line feed of the string comes right after a carriage return;
    [prev_cr] says whether the character in front of the string is one. *)
Fixpoint crlf_only (prev_cr : bool) (s : pystr) : bool :=
  match s with
  | [] => true
  | c :: s' =>
      (if (c =? LF)%N then prev_cr else true) && crlf_only (c =? CR)%N s'
  end.

(** A line with spaces and tabs added in front of it and behind it. *)
Definition padded (line line' : pystr) : Prop :=
  exists i t,
    forallb is_blank i = true /\ forallb is_blank t = true /\
    line' = i ++ line ++ t.

(** The list the second loop leaves behind, as a function of the original
    [buffer].  [apps] are the placements in descending order, [upper] is
    the index up to which the buffer is still to be copied (the start of
    the placement treated last), [tail] holds the lines already put
    together behind it: the new lines of a placement are followed by the
    buffer lines between its end and [upper]. *)
Fixpoint assemble (buffer : list StructuredLine) (apps : list application)
    (upper : nat) (tail : list StructuredLine) : list StructuredLine :=
  match apps with
  | [] => take upper buffer ++ tail
  | a :: rest =>
      assemble buffer rest (start a)
        (spliced_lines buffer a
         ++ take (upper - end_ a) (drop (end_ a) buffer) ++ tail)
  end.

(** Non-empty ranges in descending order, each below the one before it and
    all below [upper]. *)
Fixpoint descending_below (upper : nat) (apps : list application) : Prop :=
  match apps with
  | [] => True
  | a :: rest =>
      start a < end_ a /\ end_ a <= upper /\ descending_below (start a) rest
  end.

(** The numbers of lines that the placements ending at or before index [i]
    bring in and take out. *)
Definition added_below (apps : list application) (i : nat) : nat :=
  sum_list_with
    (fun a => if end_ a <=? i then length (replace_lines a) else 0) apps.

Definition removed_below (apps : list application) (i : nat) : nat :=
  sum_list_with (fun a => if end_ a <=? i then end_ a - start a else 0) apps.


(** ** [_compute_default_version] of [app_v2.0.py] *)

Section DefaultVersion.
(** What the loop reads off one directory entry: the stem that
    [os.path.splitext] gives, the match of the compiled pattern (the
    escaped base name, _v, digits, a dot, digits) at its start, and [int]
    of the two groups; [None] when the pattern does not match. *)
Variable version_of : pystr -> option (nat * nat).

(** The test of the loop on the version of an entry. *)
Definition newer (max : option (nat * nat)) (major minor : nat) : bool :=
  match max with
  | None => true
  | Some (max_major, max_minor) =>
      (max_major <? major) || ((major =? max_major) && (max_minor <? minor))
  end.

(** The loop over the directory entries; [max] is the pair
    [max_major, max_minor], [None] at first. *)
Fixpoint scan_versions (names : list pystr) (max : option (nat * nat))
  : option (nat * nat) :=
  match names with
  | [] => max
  | fn :: rest =>
      match version_of fn with
      | Some (major, minor) =>
          scan_versions rest
            (if newer max major minor then Some (major, minor) else max)
      | None => scan_versions rest max
      end
  end.

(** [listing] is what [os.listdir] returns, [None] when it raises.  The
    result [(major, minor)] stands for the string _v{major}.{minor}. *)
Definition compute_default_version (listing : option (list pystr))
  : nat * nat :=
  match listing with
  | None => (0, 0)
  | Some names =>
      match scan_versions names None with
      | None => (0, 0)
      | Some (max_major, max_minor) =>
          let minor := max_minor + 1 in
          if 10 <=? minor then (max_major + 1, 0) else (max_major, minor)
      end
  end.
End DefaultVersion.

(** The order of versions. *)
Definition version_lt (v w : nat * nat) : Prop :=
  fst v < fst w \/ (fst v = fst w /\ snd v < snd w).

Definition version_le (v w : nat * nat) : Prop := v = w \/ version_lt v w.

(** ** The cleaning of the model's answer in [_handle_success] *)

(** Three backquotes. *)
Definition FENCE : pystr := [96; 96; 96]%N.

Section Fence.
(** The class of word characters of [re] on [str]: the alphanumeric
    characters of the Unicode database and the underscore. *)
Variable is_word : char -> bool.

(** The pattern of [_handle_success], with [re.DOTALL]: a fence, an
    optional greedy run of one or more word characters, one whitespace
    character, group 1, a lazy star of the dot, and a fence.  Its parts
    are read from the right, each with the rest of the pattern as its
    continuation, and return group 1. *)

(** The closing fence. *)
Definition closing_fence (s : pystr) : option unit :=
  if starts_with FENCE s then Some tt else None.

(** The whitespace character, group 1 and the closing fence. *)
Definition after_lang (s : pystr) : option pystr :=
  match s with
  | c :: s' =>
      if py_isspace c then
        match lazy_star (fun _ => true) closing_fence s' with
        | Some (g1, _) => Some g1
        | None => None
        end
      else None
  | [] => None
  end.

(** The optional group: the run of word characters is tried first, from
    the longest down to one character, then the pattern without it. *)
Definition opt_lang (s : pystr) : option pystr :=
  match s with
  | c :: s' =>
      if is_word c then
        match greedy_star is_word after_lang s' with
        | Some (_, g1) => Some g1
        | None => after_lang s
        end
      else after_lang s
  | [] => after_lang s
  end.

(** The match of the whole pattern at the start of [s]. *)
Definition match_fence (s : pystr) : option pystr :=
  if starts_with FENCE s then opt_lang (drop (length FENCE) s) else None.

(** [re.search]: the first position, from the left, where the pattern
    matches. *)
Fixpoint search_fence (s : pystr) : option pystr :=
  match match_fence s with
  | Some g1 => Some g1
  | None =>
      match s with
      | [] => None
      | _ :: s' => search_fence s'
      end
  end.

(** The value of [clean] for the answer [result]. *)
Definition clean_result (result : pystr) : pystr :=
  if str_contains FENCE result then
    match search_fence result with
    | Some g1 => strip g1
    | None => result
    end
  else result.
End Fence.

(** * Properties *)

(** ** The scenarios of the specification *)

(** Scenario A. *)
Example scenario_A :
  apply_patch_text (lit "foo" ++ [LF] ++ lit "bar" ++ [LF])
    (patch [hunk (lit "bar") (lit "baz")])
  = inr (lit "foo" ++ [LF] ++ lit "baz" ++ [LF]).
Proof. vm_compute. reflexivity. Qed.

(** Scenario C: two hunks at places that neither overlap nor touch, given
    in either order. *)
Example scenario_C :
  apply_patch_text (lit "a" ++ [LF] ++ lit "b" ++ [LF] ++ lit "c")
    (patch [hunk (lit "c") (lit "z");
            hunk (lit "a") (lit "x" ++ [LF] ++ lit "y")])
  = inr (lit "x" ++ [LF] ++ lit "y" ++ [LF] ++ lit "b" ++ [LF] ++ lit "z") /\
  apply_patch_text (lit "a" ++ [LF] ++ lit "b" ++ [LF] ++ lit "c")
    (patch [hunk (lit "a") (lit "x" ++ [LF] ++ lit "y");
            hunk (lit "c") (lit "z")])
  = inr (lit "x" ++ [LF] ++ lit "y" ++ [LF] ++ lit "b" ++ [LF] ++ lit "z").
Proof. vm_compute. split; reflexivity. Qed.

(** Two occurrences of the search block are ambiguous. *)
Example two_occurrences_ambiguous :
  apply_patch_text (lit "foo" ++ [LF] ++ lit "foo")
    (patch [hunk (lit "foo") (lit "bar")])
  = inl (PatchError (AmbiguousStrict 1)).
Proof. vm_compute. reflexivity. Qed.

(** Two hunks on ranges that share a line are rejected. *)
Example shared_line_overlaps :
  apply_patch_text (lit "a" ++ [LF] ++ lit "b" ++ [LF] ++ lit "c")
    (patch [hunk (lit "a" ++ [LF] ++ lit "b") (lit "x");
            hunk (lit "b" ++ [LF] ++ lit "c") (lit "y")])
  = inl (PatchError OverlappingHunks).
Proof. vm_compute. reflexivity. Qed.

(** ** The backtracking stars *)

Section StarFacts.
Context {A : Type} (p : char -> bool) (k : pystr -> option A).

Lemma greedy_star_sound s m r :
  greedy_star p k s = Some (m, r) ->
  exists rest, s = m ++ rest /\ forallb p m = true /\ k rest = Some r.
Proof.
  revert m r. induction s as [|c s IH]; intros m r; simpl.
  - unfold star_stop. destruct (k []) eqn:Hk; intros [= <- <-].
    exists []. auto.
  - destruct (p c) eqn:Hp.
    + destruct (greedy_star p k s) as [[m' r']|] eqn:Hg.
      * intros [= <- <-]. destruct (IH _ _ eq_refl) as (rest & -> & Hm & Hr).
        exists rest. simpl. rewrite Hp, Hm. auto.
      * unfold star_stop. destruct (k (c :: s)) eqn:Hk; intros [= <- <-].
        exists (c :: s). auto.
    + unfold star_stop. destruct (k (c :: s)) eqn:Hk; intros [= <- <-].
      exists (c :: s). auto.
Qed.

Lemma greedy_star_stop s r :
  k s = Some r -> is_Some (greedy_star p k s).
Proof.
  intros Hk. destruct s as [|c s]; simpl; unfold star_stop; rewrite Hk.
  - eauto.
  - destruct (p c); [destruct (greedy_star p k s) as [[? ?]|]|]; eauto.
Qed.

Lemma greedy_star_complete m rest r :
  forallb p m = true -> k rest = Some r ->
  is_Some (greedy_star p k (m ++ rest)).
Proof.
  intros Hm Hk. induction m as [|c m IH]; simpl in *.
  - eapply greedy_star_stop; eauto.
  - apply andb_prop in Hm as [Hc Hm]. rewrite Hc.
    destruct (IH Hm) as [[m' r'] ->]. eauto.
Qed.

(** The greedy star stops in front of a character of its class only when
    the attempt that takes this character fails. *)
Lemma greedy_star_maximal s m r c rest :
  greedy_star p k s = Some (m, r) -> s = m ++ c :: rest -> p c = true ->
  greedy_star p k rest = None.
Proof.
  revert m. induction s as [|c0 s IH]; intros m; simpl.
  - intros _ Hs. destruct m; discriminate.
  - destruct (p c0) eqn:Hp.
    + destruct (greedy_star p k s) as [[m' r']|] eqn:Hg.
      * intros [= <- <-] [= ->] Hc. eauto.
      * unfold star_stop. destruct (k (c0 :: s)); intros [= <- <-].
        simpl. intros [= -> ->] _. exact Hg.
    + unfold star_stop. destruct (k (c0 :: s)); intros [= <- <-].
      simpl. intros [= -> ->] Hc. congruence.
Qed.

Lemma lazy_star_sound s m r :
  lazy_star p k s = Some (m, r) ->
  exists rest, s = m ++ rest /\ forallb p m = true /\ k rest = Some r.
Proof.
  revert m r. induction s as [|c s IH]; intros m r; simpl.
  - destruct (k []) eqn:Hk; intros [= <- <-]. exists []. auto.
  - destruct (k (c :: s)) eqn:Hk.
    + intros [= <- <-]. exists (c :: s). auto.
    + destruct (p c) eqn:Hp; [|discriminate].
      destruct (lazy_star p k s) as [[m' r']|] eqn:Hl; intros [= <- <-].
      destruct (IH _ _ eq_refl) as (rest & -> & Hm & Hr).
      exists rest. simpl. rewrite Hp, Hm. auto.
Qed.

Lemma lazy_star_complete m rest r :
  forallb p m = true -> k rest = Some r ->
  is_Some (lazy_star p k (m ++ rest)).
Proof.
  intros Hm Hk. induction m as [|c m IH]; simpl in *.
  - destruct rest; simpl; rewrite Hk; eauto.
  - apply andb_prop in Hm as [Hc Hm].
    destruct (k (c :: m ++ rest)); [eauto|]. rewrite Hc.
    destruct (IH Hm) as [[m' r'] ->]. eauto.
Qed.

(** The lazy star takes a character only when the rest of the pattern
    fails where it stands. *)
Lemma lazy_star_minimal s m r n :
  lazy_star p k s = Some (m, r) -> n < length m -> k (drop n s) = None.
Proof.
  revert m n. induction s as [|c s IH]; intros m n; simpl.
  - destruct (k []); intros [= <- <-]; simpl; lia.
  - destruct (k (c :: s)) eqn:Hk.
    + intros [= <- <-]; simpl; lia.
    + destruct (p c); [|discriminate].
      destruct (lazy_star p k s) as [[m' r']|] eqn:Hl; intros [= <- <-].
      simpl. intros Hn. destruct n as [|n]; simpl; [exact Hk|].
      eapply IH; eauto with lia.
Qed.
End StarFacts.

(** ** The tokenizer *)

Lemma at_dollar_inv rest u :
  at_dollar rest = Some u -> rest = [] \/ rest = [LF].
Proof.
  destruct rest as [|c [|d rest]]; simpl; auto; [|discriminate].
  destruct (N.eqb_spec c LF); [subst; auto | discriminate].
Qed.

(** What a successful match says about the line. *)
Lemma re_match_line_sound line g1 g2 g3 :
  re_match_line line = Some (g1, g2, g3) ->
  exists rest,
    line = g1 ++ g2 ++ g3 ++ rest /\ (rest = [] \/ rest = [LF]) /\
    forallb is_blank g1 = true /\ forallb is_dot g2 = true /\
    forallb is_blank g3 = true.
Proof.
  unfold re_match_line.
  destruct (greedy_star _ _ line) as [[m1 [m2 [m3 u]]]|] eqn:H1; [|discriminate].
  intros [= -> -> ->].
  apply greedy_star_sound in H1 as (r1 & -> & Hb1 & H2).
  apply lazy_star_sound in H2 as (r2 & -> & Hd & H3).
  apply greedy_star_sound in H3 as (r3 & -> & Hb3 & H4).
  apply at_dollar_inv in H4. exists r3. auto.
Qed.

(** A line without a line feed always matches. *)
Lemma re_match_line_complete line :
  forallb is_dot line = true -> is_Some (re_match_line line).
Proof.
  intros Hd. unfold re_match_line.
  assert (Hl : is_Some (lazy_star is_dot (greedy_star is_blank at_dollar)
                          (line ++ []))).
  { eapply lazy_star_complete; eauto. }
  rewrite app_nil_r in Hl. destruct Hl as [x Hx].
  destruct (greedy_star_stop is_blank _ _ _ Hx) as [[g1 [g2 [g3 u]]] ->].
  eauto.
Qed.

(** The content group neither starts nor ends with a space or a tab. *)
Lemma re_match_line_content_head line g1 c g2 g3 :
  re_match_line line = Some (g1, c :: g2, g3) -> is_blank c = false.
Proof.
  unfold re_match_line.
  destruct (greedy_star _ _ line) as [[m1 [m2 [m3 u]]]|] eqn:H1; [|discriminate].
  intros [= -> -> ->].
  destruct (is_blank c) eqn:Hc; [exfalso|reflexivity].
  pose proof (greedy_star_sound _ _ _ _ _ H1) as (r1 & Hline & _ & H2).
  pose proof (lazy_star_sound _ _ _ _ _ H2) as (r2 & -> & Hd & H3).
  simpl in Hline, Hd. apply andb_prop in Hd as [_ Hd].
  pose proof (greedy_star_maximal _ _ _ _ _ _ _ H1 Hline Hc) as Hmax.
  destruct (lazy_star_complete is_dot (greedy_star is_blank at_dollar)
              g2 r2 _ Hd H3) as [x Hx].
  destruct (greedy_star_stop is_blank _ _ _ Hx) as [y Hy].
  congruence.
Qed.

Lemma re_match_line_content_last line g1 g2 c g3 :
  re_match_line line = Some (g1, g2 ++ [c], g3) -> is_blank c = false.
Proof.
  unfold re_match_line.
  destruct (greedy_star _ _ line) as [[m1 [m2 [m3 u]]]|] eqn:H1; [|discriminate].
  intros [= -> -> ->].
  destruct (is_blank c) eqn:Hc; [exfalso|reflexivity].
  apply greedy_star_sound in H1 as (r1 & _ & _ & H2).
  pose proof (lazy_star_sound _ _ _ _ _ H2) as (r2 & -> & _ & H3).
  pose proof (greedy_star_sound _ _ _ _ _ H3) as (r3 & -> & Hb & H4).
  pose proof (lazy_star_minimal _ _ _ _ _ (length g2) H2) as Hmin.
  rewrite length_app in Hmin. simpl in Hmin.
  rewrite <- app_assoc, drop_app_length in Hmin. simpl in Hmin.
  destruct (greedy_star_complete is_blank at_dollar (c :: g3) r3 u)
    as [x Hx]; simpl; [rewrite Hc, Hb; reflexivity|exact H4|].
  simpl in Hx. rewrite Hmin in Hx; [discriminate | lia].
Qed.

Lemma lone_final_newline_intro body :
  forallb is_dot body = true -> lone_final_newline (body ++ [LF]) = true.
Proof.
  intros Hb. unfold lone_final_newline. rewrite rev_app_distr. simpl.
  apply forallb_forall. intros c Hc%in_rev.
  rewrite forallb_forall in Hb. auto.
Qed.

Lemma forallb_blank_dot g : forallb is_blank g = true -> forallb is_dot g = true.
Proof.
  induction g as [|c g IH]; simpl; [reflexivity|].
  intros [Hc Hg]%andb_prop. rewrite (IH Hg), andb_true_r.
  unfold is_blank, is_dot, SPACE, TAB, LF in *.
  destruct (N.eqb_spec c 10); [subst; discriminate | reflexivity].
Qed.

(** [reconstruct] gives back the physical line, except that it loses a
    lone final line feed. *)
Lemma reconstruct_StructuredLine_init line :
  lone_final_newline line = false ->
  reconstruct (StructuredLine_init line) = line.
Proof.
  intros Hl. unfold StructuredLine_init, reconstruct.
  destruct (re_match_line line) as [[[g1 g2] g3]|] eqn:Hm; simpl.
  - apply re_match_line_sound in Hm as (rest & -> & [-> | ->] & H1 & H2 & H3).
    + rewrite app_nil_r. reflexivity.
    + rewrite !app_assoc, lone_final_newline_intro in Hl; [discriminate|].
      rewrite !forallb_app, H2, !forallb_blank_dot; auto.
  - rewrite app_nil_r. reflexivity.
Qed.

Lemma reconstruct_lone_final_newline body :
  forallb is_dot body = true ->
  reconstruct (StructuredLine_init (body ++ [LF])) = body.
Proof.
  intros Hb. unfold StructuredLine_init, reconstruct.
  destruct (re_match_line (body ++ [LF])) as [[[g1 g2] g3]|] eqn:Hm; simpl.
  - apply re_match_line_sound in Hm as (rest & Hline & Hrest & H1 & H2 & H3).
    assert (Hd : forallb is_dot (g1 ++ g2 ++ g3) = true).
    { rewrite !forallb_app, H2, !forallb_blank_dot; auto. }
    destruct Hrest as [-> | ->].
    + rewrite app_nil_r in Hline. rewrite <- Hline in Hd.
      rewrite forallb_app in Hd. simpl in Hd.
      rewrite andb_false_r in Hd. discriminate.
    + rewrite !app_assoc in Hline. apply app_inj_tail in Hline as [-> _].
      rewrite <- app_assoc. reflexivity.
  - exfalso.
    (* the pattern matches: empty indent, the body, no trailing, then $ *)
    unfold re_match_line in Hm.
    assert (Hk : is_Some (lazy_star is_dot (greedy_star is_blank at_dollar)
                            (body ++ [LF]))).
    { eapply lazy_star_complete; eauto. }
    destruct Hk as [x Hx].
    destruct (greedy_star_stop is_blank _ _ _ Hx) as [[m1 [m2 [m3 u]]] Hy].
    rewrite Hy in Hm. discriminate.
Qed.

(** ** Splitting and joining *)

Lemma starts_with_app sub s :
  starts_with sub s = true -> s = sub ++ drop (length sub) s.
Proof.
  revert s. induction sub as [|a sub IH]; intros [|b s]; simpl; try easy.
  intros [Hab Hs]%andb_prop. apply N.eqb_eq in Hab as ->.
  f_equal. auto.
Qed.

Lemma split_go_cons sep skip cur s :
  exists x l, split_go sep skip cur s = x :: l.
Proof.
  revert skip cur. induction s as [|c s IH]; intros skip cur; simpl; eauto.
  destruct skip; [destruct (starts_with sep (c :: s))|]; eauto.
Qed.

Lemma str_join_cons sep x y l :
  str_join sep (x :: y :: l) = x ++ sep ++ str_join sep (y :: l).
Proof. reflexivity. Qed.

Lemma str_join_split_go sep skip cur s :
  sep <> [] ->
  str_join sep (split_go sep skip cur s) = cur ++ drop skip s.
Proof.
  intros Hsep. revert skip cur.
  induction s as [|c s IH]; intros skip cur; simpl.
  - rewrite drop_nil, app_nil_r. reflexivity.
  - destruct skip as [|k]; [|apply IH].
    destruct (starts_with sep (c :: s)) eqn:Hs.
    + destruct (split_go_cons sep (length sep - 1) [] s) as (x & l & Hx).
      pose proof (IH (length sep - 1) []) as IH'. rewrite Hx in *.
      rewrite str_join_cons, IH'. simpl.
      apply starts_with_app in Hs.
      destruct sep as [|a sep]; [contradiction|]. simpl in *.
      rewrite Nat.sub_0_r. f_equal. symmetry. exact Hs.
    + rewrite IH, <- app_assoc. reflexivity.
Qed.

(** [newline.join(text.split(newline)) == text] *)
Lemma str_join_str_split sep s :
  sep <> [] -> str_join sep (str_split s sep) = s.
Proof. intros Hsep. unfold str_split. now rewrite str_join_split_go. Qed.

Lemma detect_newline_nonempty text : detect_newline text <> [].
Proof. unfold detect_newline. destruct (str_contains _ _); discriminate. Qed.

Lemma str_join_split_lines_preserve text :
  str_join (detect_newline text)
    (split_lines_preserve text (detect_newline text)) = text.
Proof.
  destruct text as [|c text]; [reflexivity|].
  unfold split_lines_preserve.
  apply str_join_str_split, detect_newline_nonempty.
Qed.

Lemma str_join_map_ext {A} sep (f g : A -> pystr) l :
  Forall (fun x => f x = g x) l ->
  str_join sep (map f l) = str_join sep (map g l).
Proof.
  induction 1 as [|x l Hx Hl IH]; [reflexivity|].
  destruct l as [|y l]; simpl in *; [exact Hx|].
  rewrite Hx. do 2 f_equal. exact IH.
Qed.

(** Reassembling the untouched buffer gives the text back when no physical
    line has a lone final line feed. *)
Lemma reassemble_buffer_lines text :
  Forall (fun line => lone_final_newline line = false)
    (split_lines_preserve text (detect_newline text)) ->
  str_join (detect_newline text) (map reconstruct (buffer_lines text)) = text.
Proof.
  intros H. unfold buffer_lines. rewrite map_map.
  etransitivity;
    [apply (str_join_map_ext _ _ id)
    |rewrite map_id; apply str_join_split_lines_preserve].
  eapply Forall_impl; [exact H|]. intros line Hl.
  now apply reconstruct_StructuredLine_init.
Qed.

(** ** [locate_hunk] never raises *)

Lemma window_ok_inr file_lines floating st offset search_lines :
  st + offset + length search_lines <= length file_lines ->
  window_ok file_lines floating st offset search_lines
  = inr (window_matches file_lines floating (st + offset) search_lines).
Proof.
  revert offset. induction search_lines as [|s_line rest IH]; intros offset Hlen.
  - reflexivity.
  - simpl in *. unfold py_index.
    destruct (lookup_lt_is_Some_2 file_lines (st + offset)) as [f_line Hf];
      [lia|].
    rewrite Hf. simpl.
    destruct (contents_differ floating f_line s_line); [reflexivity|].
    rewrite IH by lia. simpl. do 2 f_equal. lia.
Qed.

Lemma scan_starts_inr file_lines search_lines floating starts matches :
  Forall (fun st => st + length search_lines <= length file_lines) starts ->
  scan_starts file_lines search_lines floating starts matches
  = inr (matches ++
         List.filter (fun st => window_matches file_lines floating st search_lines)
           starts).
Proof.
  intros H. revert matches.
  induction H as [|st starts Hst _ IH]; intros matches; simpl.
  - now rewrite app_nil_r.
  - rewrite window_ok_inr by lia. simpl. rewrite Nat.add_0_r.
    destruct (window_matches file_lines floating st search_lines).
    + rewrite IH, <- app_assoc. reflexivity.
    + apply IH.
Qed.

Lemma locate_hunk_located file_lines search_lines floating :
  locate_hunk file_lines search_lines floating
  = inr (located file_lines search_lines floating).
Proof.
  unfold locate_hunk, located.
  destruct search_lines as [|s_line rest]; [reflexivity|].
  set (sl := s_line :: rest).
  destruct (Nat.ltb_spec (length file_lines) (length sl)) as [Hlt|Hge].
  - destruct (Z.ltb_spec (Z.of_nat (length file_lines) - Z.of_nat (length sl)) 0);
      [reflexivity|lia].
  - destruct (Z.ltb_spec (Z.of_nat (length file_lines) - Z.of_nat (length sl)) 0);
      [lia|].
    replace (Z.to_nat (Z.of_nat (length file_lines) - Z.of_nat (length sl) + 1))
      with (length file_lines - length sl + 1) by lia.
    rewrite scan_starts_inr; [reflexivity|].
    apply List.Forall_forall. intros st Hin%in_seq. lia.
Qed.

(** Every index [locate_hunk] returns starts a window that lies inside the
    buffer and matches. *)
Lemma located_spec file_lines search_lines floating m :
  m ∈ located file_lines search_lines floating ->
  0 < length search_lines /\
  m + length search_lines <= length file_lines /\
  window_matches file_lines floating m search_lines = true.
Proof.
  unfold located. destruct search_lines as [|s_line rest].
  - intros H. inversion H.
  - set (sl := s_line :: rest).
    destruct (Nat.ltb_spec (length file_lines) (length sl)).
    + intros Hm. inversion Hm.
    + intros [Hin Hw]%list_elem_of_In%filter_In. apply in_seq in Hin.
      repeat split; [simpl; lia | lia | exact Hw].
Qed.

(** ** C1: the two-tier resolution policy *)

Lemma resolve_hunk_located file_lines num h s_blk r_blk :
  py_get h (lit "search_block") = inr (PyStr s_blk) ->
  py_get h (lit "replace_block") = inr (PyStr r_blk) ->
  resolve_hunk file_lines num h =
    match located file_lines (block_lines s_blk) false with
    | [m] => inr (placement s_blk r_blk m)
    | _ :: _ :: _ => inl (PatchError (AmbiguousStrict num))
    | [] =>
        match located file_lines (block_lines s_blk) true with
        | [m] => inr (placement s_blk r_blk m)
        | _ :: _ :: _ => inl (PatchError (AmbiguousFloating num))
        | [] => inl (PatchError (HunkNotFound num))
        end
    end.
Proof.
  intros Hs Hr. unfold resolve_hunk. rewrite Hs, Hr. simpl.
  rewrite !locate_hunk_located. simpl.
  destruct (located file_lines (block_lines s_blk) false)
    as [|m [|m' exact]]; simpl; try reflexivity.
  destruct (located file_lines (block_lines s_blk) true)
    as [|m [|m' tolerant]]; reflexivity.
Qed.

(** C1.  For every tokenized buffer and every hunk that carries two string
    blocks, both modes of [locate_hunk] return a list of start indices, and
    [resolve_hunk] decides from them as follows.  Exactly one exact match is
    the placement.  More than one exact match is the ambiguous-strict error,
    whatever the tolerant mode would find.  Only when there is no exact
    match is the tolerant result used: exactly one tolerant match is the
    placement, more than one is the ambiguous-floating error, none is the
    not-found error.  A placement runs from the match to the match plus the
    number of search lines and carries the tokenized replacement lines. *)
Theorem resolve_hunk_two_tier
    (file_lines : list StructuredLine) (num : nat) (h : pyval)
    (s_blk r_blk : pystr) :
  py_get h (lit "search_block") = inr (PyStr s_blk) ->
  py_get h (lit "replace_block") = inr (PyStr r_blk) ->
  let s_lines := block_lines s_blk in
  let placed m :=
    mkApplication m (m + length s_lines) (block_lines r_blk) in
  exists exact tolerant,
    locate_hunk file_lines s_lines false = inr exact /\
    locate_hunk file_lines s_lines true = inr tolerant /\
    resolve_hunk file_lines num h =
      match exact with
      | [m] => inr (placed m)
      | _ :: _ :: _ => inl (PatchError (AmbiguousStrict num))
      | [] =>
          match tolerant with
          | [m] => inr (placed m)
          | _ :: _ :: _ => inl (PatchError (AmbiguousFloating num))
          | [] => inl (PatchError (HunkNotFound num))
          end
      end.
Proof.
  intros Hs Hr s_lines placed.
  exists (located file_lines s_lines false), (located file_lines s_lines true).
  split; [apply locate_hunk_located|]. split; [apply locate_hunk_located|].
  apply resolve_hunk_located; assumption.
Qed.

Lemma resolve_hunk_two_tier_witness :
  resolve_hunk (buffer_lines (lit "  foo" ++ [LF] ++ lit "bar")) 1
    (hunk (lit "bar") (lit "baz"))
  = inr (mkApplication 1 2 (block_lines (lit "baz"))).
Proof.
  destruct (resolve_hunk_two_tier
              (buffer_lines (lit "  foo" ++ [LF] ++ lit "bar")) 1
              (hunk (lit "bar") (lit "baz")) (lit "bar") (lit "baz")
              eq_refl eq_refl) as (exact & tolerant & He & Ht & ->).
  vm_compute in He. injection He as <-. reflexivity.
Defined.

(** ** [sorted] *)

Section SortedFacts.
Context {A : Type} (lt : A -> A -> bool).
Hypothesis lt_asym : forall a b, lt a b = true -> lt b a = false.

(** [a] may stand in front of [b] when [lt b a = false]. *)
Abbreviation le := (fun a b : A => lt b a = false).

Lemma sort_insert_perm a l : Permutation (a :: l) (sort_insert lt a l).
Proof.
  induction l as [|b l IH]; simpl; [reflexivity|].
  destruct (lt b a); [|reflexivity].
  rewrite perm_swap. now apply perm_skip.
Qed.

Lemma py_sorted_perm l : Permutation l (py_sorted lt l).
Proof.
  induction l as [|a l IH]; simpl; [reflexivity|].
  rewrite <- sort_insert_perm. now apply perm_skip.
Qed.

Lemma sort_insert_sorted a l : Sorted le l -> Sorted le (sort_insert lt a l).
Proof.
  induction 1 as [|b l Hl IH Hb]; simpl.
  - repeat constructor.
  - destruct (lt b a) eqn:Hba.
    + constructor; [exact IH|].
      destruct Hb as [|c l Hbc]; simpl.
      * constructor. now apply lt_asym.
      * destruct (lt c a); constructor; [exact Hbc | now apply lt_asym].
    + repeat constructor; assumption.
Qed.

Lemma py_sorted_sorted l : Sorted le (py_sorted lt l).
Proof.
  induction l as [|a l IH]; simpl; [constructor|].
  now apply sort_insert_sorted.
Qed.
End SortedFacts.

Lemma sorted_by_start_perm apps : Permutation apps (sorted_by_start apps).
Proof. apply py_sorted_perm. Qed.

Lemma sorted_by_start_sorted apps :
  Sorted (fun a b => start a <= start b) (sorted_by_start apps).
Proof.
  eapply Sorted_ind with (P := Sorted (fun a b => start a <= start b));
    [constructor | |
     apply (py_sorted_sorted (fun b a => start b <? start a))].
  - intros a l _ Hl Ha. constructor; [exact Hl|].
    destruct Ha as [|b l Hab]; constructor.
    apply Nat.ltb_ge in Hab. exact Hab.
  - intros a b Hab. apply Nat.ltb_lt in Hab. apply Nat.ltb_ge. lia.
Qed.

Lemma sorted_by_start_reverse_perm apps :
  Permutation apps (sorted_by_start_reverse apps).
Proof. apply py_sorted_perm. Qed.

Lemma sorted_by_start_reverse_sorted apps :
  StronglySorted (fun a b => start b <= start a) (sorted_by_start_reverse apps).
Proof.
  apply Sorted_StronglySorted; [intros a b c; lia|].
  eapply Sorted_ind with (P := Sorted (fun a b => start b <= start a));
    [constructor | |
     apply (py_sorted_sorted (fun b a => start a <? start b))].
  - intros a l _ Hl Ha. constructor; [exact Hl|].
    destruct Ha as [|b l Hab]; constructor.
    apply Nat.ltb_ge in Hab. exact Hab.
  - intros a b Hab. apply Nat.ltb_lt in Hab. apply Nat.ltb_ge. lia.
Qed.

(** ** C5: the overlap check *)

Lemma ranges_intersect_sym a b : ranges_intersect a b -> ranges_intersect b a.
Proof. intros (k & Ha & Hb). exists k. auto. Qed.

Lemma has_overlap_perm l l' :
  Permutation l l' -> has_overlap l -> has_overlap l'.
Proof.
  induction 1 as [|x l l' Hp IH|x y l|l1 l2 l3 _ IH1 _ IH2]; intros Ho; auto.
  - inversion Ho as [a l0 b Hb Hab|a l0 Hl]; subst.
    + eapply overlap_here; [|exact Hab]. now rewrite <- Hp.
    + apply overlap_later. auto.
  - inversion Ho as [a l0 b Hb Hab|a l0 Hl]; subst.
    + apply elem_of_cons in Hb as [->|Hb].
      * eapply overlap_here; [|apply ranges_intersect_sym, Hab].
        apply list_elem_of_here.
      * apply overlap_later. eapply overlap_here; eauto.
    + inversion Hl as [a l0 b Hb Hab|a l0 Hl']; subst.
      * eapply overlap_here; [|exact Hab]. now apply list_elem_of_further.
      * now do 2 apply overlap_later.
Qed.

Lemma has_overlap_some_pair l : has_overlap l <-> some_pair_overlaps l.
Proof.
  split.
  - induction 1 as [a l b Hb Hab|a l _ IH].
    + apply list_elem_of_lookup in Hb as [j Hj].
      exists 0, (S j), a, b. auto.
    + destruct IH as (i & j & x & y & Hij & Hi & Hj & Hxy).
      exists (S i), (S j), x, y. auto.
  - intros (i & j & a & b & Hij & Hi & Hj & Hab).
    assert (Hlt : forall l i j a b, i < j -> l !! i = Some a ->
              l !! j = Some b -> ranges_intersect a b -> has_overlap l).
    { clear. induction l as [|x l IH]; intros i j a b Hij Hi Hj Hab.
      - discriminate.
      - destruct j as [|j]; [lia|]. destruct i as [|i]; simpl in *.
        + injection Hi as ->. eapply overlap_here; [|exact Hab].
          eapply list_elem_of_lookup_2; eauto.
        + apply overlap_later. eapply (IH i j); eauto with lia. }
    destruct (Nat.lt_total i j) as [Hlt'|[->|Hgt]]; [eauto | contradiction |].
    eapply Hlt; eauto using ranges_intersect_sym.
Qed.

Lemma check_overlaps_adjacent apps :
  check_overlaps apps = adjacent_overlap (sorted_by_start apps).
Proof. destruct apps; reflexivity. Qed.

Lemma adjacent_overlap_cons a b l :
  adjacent_overlap (a :: b :: l)
  = (start b <? end_ a) || adjacent_overlap (b :: l).
Proof. reflexivity. Qed.

Lemma adjacent_overlap_has_overlap l :
  Forall (fun a => start a < end_ a) l ->
  Sorted (fun a b => start a <= start b) l ->
  adjacent_overlap l = true -> has_overlap l.
Proof.
  intros Hne Hs. induction Hs as [|a l Hs IH Ha]; [discriminate|].
  destruct Ha as [|b l Hab]; [discriminate|].
  rewrite adjacent_overlap_cons.
  apply Forall_cons in Hne as [Hna Hne].
  intros [Hov|Hov]%orb_prop.
  - apply Nat.ltb_lt in Hov. apply Forall_cons in Hne as [Hnb _].
    eapply overlap_here; [apply list_elem_of_here|].
    exists (start b). lia.
  - apply overlap_later. auto.
Qed.

(** Without an overlapping adjacent pair the ranges are in a chain: each
    one ends before all the later ones start. *)
Lemma adjacent_overlap_chain a l :
  Forall (fun a => start a < end_ a) (a :: l) ->
  adjacent_overlap (a :: l) = false ->
  Forall (fun x => end_ a <= start x) l.
Proof.
  revert a. induction l as [|b l IH]; intros a Hne Hadj; [constructor|].
  rewrite adjacent_overlap_cons in Hadj.
  apply orb_false_elim in Hadj as [Hab Hadj]. apply Nat.ltb_ge in Hab.
  apply Forall_cons in Hne as [Hna Hne].
  constructor; [exact Hab|].
  pose proof Hne as [Hnb _]%Forall_cons.
  eapply Forall_impl; [apply IH; eauto|]. simpl. intros x Hx. lia.
Qed.

Lemma adjacent_overlap_false_no_overlap l :
  Forall (fun a => start a < end_ a) l ->
  adjacent_overlap l = false -> ~ has_overlap l.
Proof.
  induction l as [|a l IH]; intros Hne Hadj Ho; [inversion Ho|].
  pose proof (adjacent_overlap_chain a l Hne Hadj) as Hch.
  inversion Ho as [a0 l0 b Hb Hab|a0 l0 Hl]; subst.
  - rewrite Forall_forall in Hch. specialize (Hch b Hb).
    destruct Hab as (k & Ha & Hkb). lia.
  - apply Forall_cons in Hne as [_ Hne]. apply IH; auto.
    destruct l as [|b l]; [reflexivity|].
    rewrite adjacent_overlap_cons in Hadj.
    now apply orb_false_elim in Hadj as [_ Hadj].
Qed.

(** C5.  For every list of placements with [start < end], [check_overlaps]
    (sort by start ascending, test every adjacent pair for
    [prev.end > cur.start]) returns true if and only if two placements at
    different positions of the list have ranges that share a line index;
    a list of at most one placement passes. *)
Theorem check_overlaps_correct (apps : list application) :
  Forall (fun a => start a < end_ a) apps ->
  (check_overlaps apps = true <-> some_pair_overlaps apps) /\
  (length apps <= 1 -> check_overlaps apps = false).
Proof.
  intros Hne.
  assert (Hne' : Forall (fun a => start a < end_ a) (sorted_by_start apps)).
  { now rewrite <- sorted_by_start_perm. }
  assert (Hiff : check_overlaps apps = true <-> some_pair_overlaps apps).
  { rewrite check_overlaps_adjacent, <- has_overlap_some_pair. split.
    - intros Hadj. eapply has_overlap_perm;
        [symmetry; apply sorted_by_start_perm|].
      apply adjacent_overlap_has_overlap;
        auto using sorted_by_start_sorted.
    - intros Ho.
      destruct (adjacent_overlap (sorted_by_start apps)) eqn:Hadj;
        [reflexivity|].
      exfalso. eapply adjacent_overlap_false_no_overlap; eauto.
      eapply has_overlap_perm; [apply sorted_by_start_perm|exact Ho]. }
  split; [exact Hiff|].
  intros Hlen. apply not_true_is_false. intros Hc.
  apply Hiff in Hc as (i & j & a & b & Hij & Hi & Hj & _).
  apply lookup_lt_Some in Hi, Hj. lia.
Qed.

Lemma check_overlaps_correct_witness :
  check_overlaps [mkApplication 4 6 []; mkApplication 0 2 [];
                  mkApplication 1 5 []] = true.
Proof.
  apply (check_overlaps_correct
           [mkApplication 4 6 []; mkApplication 0 2 []; mkApplication 1 5 []]).
  - repeat constructor.
  - exists 0, 2, (mkApplication 4 6 []), (mkApplication 1 5 []).
    repeat split; [discriminate|]. exists 4. simpl. lia.
Defined.

(** ** The applier *)

Lemma new_lines_from_insert st start end_ indent i r_lines k x :
  k < start + i ->
  new_lines_from (<[k := x]> st) start end_ indent i r_lines
  = new_lines_from st start end_ indent i r_lines.
Proof.
  revert i. induction r_lines as [|rl rest IH]; intros i Hk; simpl;
    [reflexivity|].
  rewrite IH by lia. f_equal. unfold new_line.
  rewrite list_lookup_insert_ne by lia. reflexivity.
Qed.

Lemma new_lines_from_length st start end_ indent i r_lines :
  length (new_lines_from st start end_ indent i r_lines) = length r_lines.
Proof.
  revert i. induction r_lines as [|rl rest IH]; intros i; simpl; auto.
Qed.

Lemma new_lines_from_lookup st start end_ indent i r_lines j :
  new_lines_from st start end_ indent i r_lines !! j
  = new_line st start end_ indent (i + j) <$> r_lines !! j.
Proof.
  revert i j. induction r_lines as [|rl rest IH]; intros i [|j]; simpl; auto.
  - now rewrite Nat.add_0_r.
  - rewrite IH. now replace (S i + j) with (i + S j) by lia.
Qed.

(** The inner loop raises nothing when the range lies inside the list; it
    returns the new lines and changes [file_lines] only inside the range. *)
Lemma build_new_lines_spec start end_ indent r_lines :
  forall i new_l st,
    end_ <= length st ->
    exists st',
      build_new_lines start end_ indent i r_lines new_l st
      = (inr (new_l ++ new_lines_from st start end_ indent i r_lines), st') /\
      length st' = length st /\
      take start st' = take start st /\
      drop end_ st' = drop end_ st.
Proof.
  induction r_lines as [|rl rest IH]; intros i new_l st Hend; simpl.
  - exists st. now rewrite app_nil_r.
  - unfold new_line. destruct (Nat.ltb_spec (start + i) end_) as [Hlt|Hge].
    + unfold m_bind, m_get, m_lift, m_put, py_index.
      destruct (lookup_lt_is_Some_2 st (start + i)) as [orig Ho]; [lia|].
      rewrite Ho. simpl.
      set (orig' := set_content orig (content rl)).
      destruct (IH (S i) (new_l ++ [orig']) (<[start + i := orig']> st))
        as (st' & Hrun & Hlen & Htake & Hdrop).
      { now rewrite length_insert. }
      exists st'. rewrite Hrun, new_lines_from_insert by lia.
      rewrite <- app_assoc. simpl. split; [reflexivity|].
      rewrite Hlen, Htake, Hdrop, length_insert.
      rewrite take_insert_ge by lia. rewrite drop_insert_lt by lia. auto.
    + destruct (IH (S i) (new_l ++ [set_indent rl indent]) st Hend)
        as (st' & Hrun & Hrest).
      exists st'. rewrite Hrun, <- app_assoc. auto.
Qed.

Lemma apply_application_spec app st :
  start app < end_ app -> end_ app <= length st ->
  apply_application app st
  = (inr tt,
     take (start app) st ++ spliced_lines st app ++ drop (end_ app) st).
Proof.
  intros Hse Hend. unfold apply_application, spliced_lines.
  unfold m_bind at 1. unfold m_get at 1.
  unfold m_bind at 1.
  destruct (Nat.ltb_spec (start app) (length st)) as [Hlt|]; [|lia].
  destruct (lookup_lt_is_Some_2 st (start app) Hlt) as [l0 Hl0].
  unfold m_bind at 1. unfold m_lift, py_index. rewrite Hl0. simpl.
  unfold m_bind at 1.
  destruct (build_new_lines_spec (start app) (end_ app) (indent l0)
              (replace_lines app) 0 [] st Hend)
    as (st' & Hrun & Hlen & Htake & Hdrop).
  rewrite Hrun. simpl. unfold m_bind, m_get, m_put.
  rewrite Htake, Nat.max_r, Hdrop by lia. reflexivity.
Qed.

(** Where the current list agrees with the original buffer up to the end
    of the placement, the new lines are built from the original lines. *)
Lemma new_lines_from_prefix orig st start end_ indent r_lines :
  take end_ st = take end_ orig ->
  forall i,
    new_lines_from st start end_ indent i r_lines
    = new_lines_from orig start end_ indent i r_lines.
Proof.
  intros Hpre. induction r_lines as [|rl rest IH]; intros i; simpl;
    [reflexivity|].
  rewrite IH. f_equal. unfold new_line.
  destruct (Nat.ltb_spec (start + i) end_) as [Hlt|]; [|reflexivity].
  rewrite <- (lookup_take_lt st end_), <- (lookup_take_lt orig end_) by lia.
  now rewrite Hpre.
Qed.

(** C2.  Let the current list agree with the original buffer up to the end
    of a placement with [start < end <= len(buffer)], as it does at every
    iteration of the second loop.  Then [apply_application] raises nothing
    and replaces the sub-range [start, end) by one new line per replacement
    line.  At a position [i] with [start + i < end] the new line has the
    indent and the trailing of the original buffer line at [start + i] and
    the content of the replacement line; at a position with
    [start + i >= end] it has the indent of the original buffer line at
    [start] and the content and the trailing of the replacement line.  On
    the buffer of scenario B (two spaces, foo, line feed) the hunk that
    searches foo and replaces it by foo, line feed, extra gives the text
    with the line extra indented by two spaces. *)
Theorem apply_application_splices (buffer file_lines : list StructuredLine)
    (app : application) :
  start app < end_ app -> end_ app <= length buffer ->
  take (end_ app) file_lines = take (end_ app) buffer ->
  (exists new_l,
     apply_application app file_lines
     = (inr tt,
        take (start app) buffer ++ new_l ++ drop (end_ app) file_lines) /\
     length new_l = length (replace_lines app) /\
     forall i rl, replace_lines app !! i = Some rl ->
       exists nl, new_l !! i = Some nl /\ content nl = content rl /\
         if start app + i <? end_ app
         then exists orig, buffer !! (start app + i) = Some orig /\
                indent nl = indent orig /\ trailing nl = trailing orig
         else exists orig0, buffer !! start app = Some orig0 /\
                indent nl = indent orig0 /\ trailing nl = trailing rl) /\
  apply_patch_text (lit "  foo" ++ [LF])
    (patch [hunk (lit "foo") (lit "foo" ++ [LF] ++ lit "extra")])
  = inr (lit "  foo" ++ [LF] ++ lit "  extra" ++ [LF]).
Proof.
  intros Hse Hend Hpre. split; [|vm_compute; reflexivity].
  assert (Hlen : end_ app <= length file_lines).
  { apply (f_equal length) in Hpre. rewrite !length_take in Hpre. lia. }
  assert (Hstart : take (start app) file_lines = take (start app) buffer).
  { apply (f_equal (take (start app))) in Hpre.
    rewrite !take_take, !Nat.min_l in Hpre by lia. exact Hpre. }
  assert (H0 : file_lines !! start app = buffer !! start app).
  { rewrite <- (lookup_take_lt file_lines (end_ app)),
      <- (lookup_take_lt buffer (end_ app)) by lia. now rewrite Hpre. }
  exists (spliced_lines buffer app).
  split.
  { rewrite apply_application_spec, Hstart by assumption.
    unfold spliced_lines. now rewrite (new_lines_from_prefix buffer), H0. }
  split; [apply new_lines_from_length|].
  intros i rl Hrl. unfold spliced_lines.
  rewrite new_lines_from_lookup, Hrl. simpl.
  eexists. split; [reflexivity|]. unfold new_line.
  destruct (Nat.ltb_spec (start app + i) (end_ app)) as [Hlt|Hge].
  - destruct (lookup_lt_is_Some_2 buffer (start app + i)) as [orig Ho];
      [lia|].
    rewrite Ho. simpl. eauto.
  - destruct (lookup_lt_is_Some_2 buffer (start app)) as [orig0 Ho];
      [lia|].
    rewrite Ho. simpl. eauto.
Qed.

Lemma apply_application_splices_witness :
  let file_lines := buffer_lines (lit "  foo" ++ [LF]) in
  let app :=
    mkApplication 0 1 (block_lines (lit "foo" ++ [LF] ++ lit "extra")) in
  exists new_l,
    apply_application app file_lines
    = (inr tt, take 0 file_lines ++ new_l ++ drop 1 file_lines) /\
    length new_l = 2.
Proof.
  intros file_lines app.
  destruct (apply_application_splices file_lines file_lines app)
    as [(new_l & Hrun & Hlen & _) _].
  - simpl. lia.
  - vm_compute. lia.
  - reflexivity.
  - exists new_l. split; [exact Hrun | exact Hlen].
Defined.

(** At every iteration of the second loop the current list agrees with
    the original buffer up to the end of the placement that is applied:
    the placements above it changed the list only from their own start
    on. *)
Lemma loop_reads_buffer_descending buffer apps st :
  StronglySorted (fun a b => start b <= start a) apps ->
  ~ has_overlap apps ->
  Forall (fun a => start a < end_ a /\ end_ a <= length buffer) apps ->
  Forall (fun a => take (end_ a) st = take (end_ a) buffer) apps ->
  loop_reads_buffer buffer apps st.
Proof.
  intros Hs. revert st.
  induction Hs as [|app rest Hs IH Hle]; intros st Hno Hin Hpre; simpl;
    [exact I|].
  apply Forall_cons in Hin as [[Hse He] Hin].
  apply Forall_cons in Hpre as [Ha Hpre].
  split; [exact Ha|].
  assert (Hlen : end_ app <= length st).
  { apply (f_equal length) in Ha. rewrite !length_take in Ha. lia. }
  eexists. split; [now apply apply_application_spec|].
  apply IH; auto.
  - intros Ho. apply Hno. now apply overlap_later.
  - rewrite Forall_forall in Hle, Hin, Hpre |- *. intros x Hx.
    assert (end_ x <= start app).
    { destruct (Nat.le_gt_cases (end_ x) (start app)) as [|Hgt];
        [assumption|].
      exfalso. apply Hno. eapply overlap_here; [exact Hx|].
      exists (start app). specialize (Hle x Hx).
      destruct (Hin x Hx). lia. }
    rewrite take_app_le by (rewrite length_take; lia).
    rewrite take_take, Nat.min_l by lia. auto.
Qed.

Lemma apply_loop_reads_buffer buffer apps :
  Forall (fun a => start a < end_ a /\ end_ a <= length buffer) apps ->
  ~ some_pair_overlaps apps ->
  loop_reads_buffer buffer (sorted_by_start_reverse apps) buffer.
Proof.
  intros Hin Hno. apply loop_reads_buffer_descending.
  - apply sorted_by_start_reverse_sorted.
  - intros Ho. apply Hno, has_overlap_some_pair.
    eapply has_overlap_perm;
      [symmetry; apply sorted_by_start_reverse_perm|exact Ho].
  - now rewrite <- sorted_by_start_reverse_perm.
  - apply Forall_forall. auto.
Qed.

(** ** C10: the application loop stays in bounds *)

Lemma loop_in_bounds_run apps st :
  loop_in_bounds apps st ->
  exists st', apply_applications apps st = (inr tt, st').
Proof.
  revert st. induction apps as [|app rest IH]; intros st; simpl.
  - eauto.
  - intros (_ & _ & st1 & Hrun & Hrest). unfold m_bind. rewrite Hrun.
    auto.
Qed.

Lemma loop_in_bounds_descending apps st :
  StronglySorted (fun a b => start b <= start a) apps ->
  ~ has_overlap apps ->
  Forall (fun a => start a < end_ a) apps ->
  Forall (fun a => end_ a <= length st) apps ->
  loop_in_bounds apps st.
Proof.
  intros Hs. revert st.
  induction Hs as [|app rest Hs IH Hle]; intros st Hno Hne Hend; simpl;
    [exact I|].
  apply Forall_cons in Hne as [Hse Hne].
  apply Forall_cons in Hend as [He Hend].
  split; [lia|]. split; [exact He|].
  eexists. split; [now apply apply_application_spec|].
  apply IH; auto.
  - intros Ho. apply Hno. now apply overlap_later.
  - rewrite Forall_forall in Hle, Hne |- *. intros x Hx.
    rewrite !length_app, length_take_le by lia.
    assert (end_ x <= start app); [|lia].
    destruct (Nat.le_gt_cases (end_ x) (start app)) as [|Hgt]; [assumption|].
    exfalso. apply Hno. eapply overlap_here; [exact Hx|].
    exists (start app). specialize (Hle x Hx). lia.
Qed.

(** C10.  For all placements that lie inside the buffer ([start < end] and
    [end <= len(file_lines)]) and are pairwise non-overlapping, the second
    loop, which takes them in descending order of [start], stays in bounds:
    at every iteration [start] is strictly less than the current length of
    the list, so the indent is never the empty-string fallback, and no read
    raises [IndexError]: the loop ends normally. *)
Theorem apply_loop_in_bounds (file_lines : list StructuredLine)
    (apps : list application) :
  Forall (fun a => start a < end_ a /\ end_ a <= length file_lines) apps ->
  ~ some_pair_overlaps apps ->
  loop_in_bounds (sorted_by_start_reverse apps) file_lines /\
  exists st',
    apply_applications (sorted_by_start_reverse apps) file_lines
    = (inr tt, st').
Proof.
  intros Hin Hno.
  assert (Hl : loop_in_bounds (sorted_by_start_reverse apps) file_lines).
  { apply loop_in_bounds_descending.
    - apply sorted_by_start_reverse_sorted.
    - intros Ho. apply Hno, has_overlap_some_pair.
      eapply has_overlap_perm;
        [symmetry; apply sorted_by_start_reverse_perm|exact Ho].
    - rewrite <- sorted_by_start_reverse_perm.
      eapply Forall_impl; [exact Hin|]. simpl. tauto.
    - rewrite <- sorted_by_start_reverse_perm.
      eapply Forall_impl; [exact Hin|]. simpl. tauto. }
  split; [exact Hl | now apply loop_in_bounds_run].
Qed.

Lemma apply_loop_in_bounds_witness :
  let file_lines := buffer_lines (lit "a" ++ [LF] ++ lit "b" ++ [LF] ++ lit "c") in
  let apps := [mkApplication 0 1 (block_lines (lit "x" ++ [LF] ++ lit "y"));
               mkApplication 2 3 (block_lines (lit "z"))] in
  loop_in_bounds (sorted_by_start_reverse apps) file_lines.
Proof.
  intros file_lines apps.
  apply (apply_loop_in_bounds file_lines apps).
  - repeat constructor; vm_compute; lia.
  - intros (i & j & a & b & Hij & Hi & Hj & k & Ha & Hb).
    destruct i as [|[|i]], j as [|[|j]]; try discriminate; try contradiction;
      simpl in Hi, Hj; injection Hi as <-; injection Hj as <-;
      simpl in Ha, Hb; lia.
Defined.

(** ** C3: all placements are found before the first mutation *)

(** The first loop reads [file_lines] and never assigns to it. *)
Lemma resolve_hunks_reads_only hunks idx applications st :
  resolve_hunks hunks idx applications st
  = (resolve_all st hunks idx applications, st).
Proof.
  revert idx applications.
  induction hunks as [|h rest IH]; intros idx applications; simpl;
    [reflexivity|].
  unfold m_bind, m_get, m_lift.
  destruct (resolve_hunk st (idx + 1) h) as [e|app]; simpl; [reflexivity|].
  apply IH.
Qed.

Lemma resolve_all_inr file_lines hunks idx acc apps :
  resolve_all file_lines hunks idx acc = inr apps ->
  exists apps', apps = acc ++ apps' /\
                placements_of file_lines hunks idx apps'.
Proof.
  revert idx acc.
  induction hunks as [|h rest IH]; intros idx acc; simpl.
  - intros [= <-]. exists []. rewrite app_nil_r. split; [reflexivity|].
    split; [reflexivity|]. intros k h Hk. discriminate.
  - destruct (resolve_hunk file_lines (idx + 1) h) as [e|app] eqn:Hh; simpl;
      [discriminate|].
    intros Hr. apply IH in Hr as (apps' & -> & Hlen & Hall).
    exists (app :: apps'). rewrite <- app_assoc. split; [reflexivity|].
    split; [simpl; now rewrite Hlen|].
    intros [|k] h' Hk; simpl in *.
    + injection Hk as <-. exists app. rewrite Nat.add_0_r. auto.
    + destruct (Hall k h' Hk) as (a & Ha & Hres). exists a.
      split; [exact Ha|]. now replace (idx + S k + 1) with (S idx + k + 1) by lia.
Qed.

(** A hunk that resolves has two string blocks and exactly one match, in
    the exact mode or, without exact match, in the tolerant mode. *)
Lemma resolve_hunk_inr file_lines num h a :
  resolve_hunk file_lines num h = inr a ->
  exists s_blk r_blk m,
    py_get h (lit "search_block") = inr (PyStr s_blk) /\
    py_get h (lit "replace_block") = inr (PyStr r_blk) /\
    a = placement s_blk r_blk m /\
    (located file_lines (block_lines s_blk) false = [m] \/
     located file_lines (block_lines s_blk) false = [] /\
     located file_lines (block_lines s_blk) true = [m]).
Proof.
  intros Hres.
  destruct (py_get h (lit "search_block")) as [e|vs] eqn:Hs;
    [unfold resolve_hunk in Hres; rewrite Hs in Hres; discriminate|].
  destruct (py_get h (lit "replace_block")) as [e|vr] eqn:Hr;
    [unfold resolve_hunk in Hres; rewrite Hs, Hr in Hres; discriminate|].
  destruct vs as [| | |s_blk| |];
    try (unfold resolve_hunk in Hres; rewrite Hs, Hr in Hres; discriminate).
  destruct vr as [| | |r_blk| |];
    try (unfold resolve_hunk in Hres; rewrite Hs, Hr in Hres; discriminate).
  rewrite (resolve_hunk_located _ _ _ _ _ Hs Hr) in Hres.
  exists s_blk, r_blk.
  destruct (located file_lines (block_lines s_blk) false)
    as [|m [|m' exact]]; [| |discriminate].
  - destruct (located file_lines (block_lines s_blk) true)
      as [|m [|m' tolerant]]; [discriminate| |discriminate].
    injection Hres as <-. exists m. auto 10.
  - injection Hres as <-. exists m. auto 10.
Qed.

(** A resolved placement is a non-empty range inside the buffer. *)
Lemma resolve_hunk_in_bounds file_lines num h a :
  resolve_hunk file_lines num h = inr a ->
  start a < end_ a /\ end_ a <= length file_lines.
Proof.
  intros (s_blk & r_blk & m & _ & _ & -> & Hloc)%resolve_hunk_inr.
  assert (Hm : exists floating,
             m ∈ located file_lines (block_lines s_blk) floating).
  { destruct Hloc as [H|[_ H]]; eexists; rewrite H; apply list_elem_of_here. }
  destruct Hm as [floating (Hpos & Hend & _)%located_spec].
  simpl. lia.
Qed.

Lemma placements_of_in_bounds file_lines hunks idx apps :
  placements_of file_lines hunks idx apps ->
  Forall (fun a => start a < end_ a /\ end_ a <= length file_lines) apps.
Proof.
  intros [Hlen Hall]. apply Forall_lookup. intros k a Ha.
  destruct (lookup_lt_is_Some_2 hunks k) as [h Hh].
  { rewrite <- Hlen. eapply lookup_lt_Some; eauto. }
  destruct (Hall k h Hh) as (a' & Ha' & Hres).
  assert (a' = a) as -> by congruence.
  eapply resolve_hunk_in_bounds; eauto.
Qed.

(** The second loop on placements that passed the overlap check. *)
Lemma apply_applications_checked file_lines apps :
  Forall (fun a => start a < end_ a /\ end_ a <= length file_lines) apps ->
  check_overlaps apps = false ->
  exists st',
    apply_applications (sorted_by_start_reverse apps) file_lines
    = (inr tt, st').
Proof.
  intros Hin Hchk. apply loop_in_bounds_run, loop_in_bounds_descending.
  - apply sorted_by_start_reverse_sorted.
  - intros Ho.
    assert (Hne : Forall (fun a => start a < end_ a) (sorted_by_start apps)).
    { rewrite <- sorted_by_start_perm.
      eapply Forall_impl; [exact Hin|]. simpl. tauto. }
    rewrite check_overlaps_adjacent in Hchk.
    eapply adjacent_overlap_false_no_overlap; eauto.
    eapply has_overlap_perm; [|exact Ho].
    rewrite <- sorted_by_start_perm. symmetry.
    apply sorted_by_start_reverse_perm.
  - rewrite <- sorted_by_start_reverse_perm.
    eapply Forall_impl; [exact Hin|]. simpl. tauto.
  - rewrite <- sorted_by_start_reverse_perm.
    eapply Forall_impl; [exact Hin|]. simpl. tauto.
Qed.

(** The run of [apply_patch_text] in three phases. *)
Lemma run_apply_patch_text_phases text patch_obj hunks :
  py_get patch_obj (lit "hunks") = inr (PyList hunks) ->
  run_apply_patch_text text patch_obj =
    match resolve_all (buffer_lines text) hunks 0 [] with
    | inl e => (inl e, buffer_lines text)
    | inr apps =>
        if check_overlaps apps
        then (inl (PatchError OverlappingHunks), buffer_lines text)
        else
          match apply_applications (sorted_by_start_reverse apps)
                  (buffer_lines text) with
          | (inr _, st) =>
              (inr (str_join (detect_newline text) (map reconstruct st)), st)
          | (inl e, st) => (inl e, st)
          end
    end.
Proof.
  intros Hh. unfold run_apply_patch_text, apply_patch_body.
  unfold m_bind at 1. unfold m_lift at 1. rewrite Hh.
  unfold m_bind at 1. rewrite resolve_hunks_reads_only.
  destruct (resolve_all _ _ _ _) as [e|apps]; [reflexivity|].
  destruct (check_overlaps apps); [reflexivity|].
  unfold m_bind at 1.
  destruct (apply_applications _ _) as [[e|[]] st]; reflexivity.
Qed.

(** C3.  A run of [apply_patch_text] either raises, and then [file_lines]
    is still the tokenized original buffer: nothing was mutated and no
    text is returned; or it returns, and then every hunk was resolved to
    the placement that [resolve_hunk] gives it on the original tokenized
    buffer, alone and whatever the other hunks replace, the overlap check
    passed on these placements, and only then did the second loop mutate
    the list, from the original buffer, into the list that is joined into
    the result. *)
Theorem apply_patch_text_atomic (text : pystr) (patch_obj : pyval) :
  match run_apply_patch_text text patch_obj with
  | (inl e, st) => st = buffer_lines text
  | (inr out, st) =>
      exists hunks apps,
        py_get patch_obj (lit "hunks") = inr (PyList hunks) /\
        placements_of (buffer_lines text) hunks 0 apps /\
        check_overlaps apps = false /\
        apply_applications (sorted_by_start_reverse apps) (buffer_lines text)
        = (inr tt, st) /\
        out = str_join (detect_newline text) (map reconstruct st)
  end.
Proof.
  destruct (py_get patch_obj (lit "hunks")) as [e|v] eqn:Hh.
  { unfold run_apply_patch_text, apply_patch_body, m_bind, m_lift.
    rewrite Hh. reflexivity. }
  destruct v as [| | | |hunks|];
    try (unfold run_apply_patch_text, apply_patch_body, m_bind, m_lift;
         rewrite Hh; reflexivity).
  rewrite (run_apply_patch_text_phases _ _ _ Hh).
  destruct (resolve_all (buffer_lines text) hunks 0 []) as [e|apps] eqn:Hres;
    [reflexivity|].
  destruct (check_overlaps apps) eqn:Hchk; [reflexivity|].
  apply resolve_all_inr in Hres as (apps' & -> & Hpl). simpl in *.
  destruct (apply_applications_checked (buffer_lines text) apps')
    as [st Hrun]; [eapply placements_of_in_bounds; eauto | exact Hchk |].
  rewrite Hrun. exists hunks, apps'. auto.
Qed.

(** ** C4: reassembling the untouched buffer *)

(** An empty text is one empty line. *)
Lemma buffer_lines_empty :
  buffer_lines [] = [mkStructuredLine [] [] [] []].
Proof. reflexivity. Qed.

(** With an empty hunk list the result is the reassembled buffer. *)
Lemma apply_patch_text_no_hunks text :
  apply_patch_text text (patch [])
  = inr (str_join (detect_newline text) (map reconstruct (buffer_lines text))).
Proof. reflexivity. Qed.

(** The round trip holds for every text none of whose physical lines has a
    lone final line feed; such a line arises only when the text has both a
    CR LF and a line feed that is not part of one. *)
Lemma apply_patch_text_no_hunks_roundtrip text :
  Forall (fun line => lone_final_newline line = false)
    (split_lines_preserve text (detect_newline text)) ->
  apply_patch_text text (patch []) = inr text.
Proof.
  intros H. rewrite apply_patch_text_no_hunks.
  now rewrite reassemble_buffer_lines.
Qed.

(** C4.  The text a, CR LF, b, LF has both line endings.  It is split on
    CR LF into the physical lines a and b LF; on the second one the anchor
    $ of the pattern matches in front of the final line feed, so the three
    groups are empty, b and empty, and [reconstruct] gives b.  The patch
    with an empty hunk list therefore returns the text without its last
    line feed: the round trip loses a character. *)
Theorem roundtrip_drops_final_line_feed :
  buffer_lines (lit "a" ++ [CR; LF] ++ lit "b" ++ [LF])
  = [mkStructuredLine (lit "a") [] (lit "a") [];
     mkStructuredLine (lit "b" ++ [LF]) [] (lit "b") []] /\
  apply_patch_text (lit "a" ++ [CR; LF] ++ lit "b" ++ [LF]) (patch [])
  = inr (lit "a" ++ [CR; LF] ++ lit "b") /\
  apply_patch_text (lit "a" ++ [CR; LF] ++ lit "b" ++ [LF]) (patch [])
  <> inr (lit "a" ++ [CR; LF] ++ lit "b" ++ [LF]).
Proof. vm_compute. repeat split. discriminate. Qed.

(** ** C6: an empty search block *)

(** [re.split] never returns an empty list, so the guard of [locate_hunk]
    for empty [search_lines] is not reached from [apply_patch_text]. *)
Lemma re_split_go_cons cur s : exists x l, re_split_go cur s = x :: l.
Proof.
  remember (length s) as n eqn:Hn. revert cur s Hn.
  induction n as [n IH] using lt_wf_ind. intros cur [|c s1] Hn; simpl; eauto.
  simpl in Hn.
  destruct (c =? CR)%N.
  - destruct s1 as [|d s2]; [simpl; eauto|].
    destruct (d =? LF)%N; [eauto|].
    eapply (IH (length (d :: s2))); [lia | reflexivity].
  - destruct (c =? LF)%N; [eauto|].
    eapply (IH (length s1)); [lia | reflexivity].
Qed.

Lemma block_lines_empty : block_lines [] = [mkStructuredLine [] [] [] []].
Proof. reflexivity. Qed.

(** C6.  The empty search block is split into one empty line, whose
    content, the empty string, equals the content of every blank buffer
    line.  In the buffer foo, LF, bar, LF the only blank line is the empty
    last one, at index 2: the exact mode returns this index, the hunk is
    resolved to the placement from 2 to 3, and the patch is applied instead
    of failing as not found. *)
Theorem empty_search_block_matches_blank_line :
  locate_hunk (buffer_lines (lit "foo" ++ [LF] ++ lit "bar" ++ [LF]))
    (block_lines []) false = inr [2] /\
  resolve_hunk (buffer_lines (lit "foo" ++ [LF] ++ lit "bar" ++ [LF])) 1
    (hunk [] (lit "baz"))
  = inr (mkApplication 2 3 (block_lines (lit "baz"))) /\
  apply_patch_text (lit "foo" ++ [LF] ++ lit "bar" ++ [LF])
    (patch [hunk [] (lit "baz")])
  = inr (lit "foo" ++ [LF] ++ lit "bar" ++ [LF] ++ lit "baz").
Proof. vm_compute. repeat split. Qed.

(** ** C7: a malformed hunk *)

Lemma resolve_hunk_incomplete file_lines num h :
  hunk_incomplete h ->
  resolve_hunk file_lines num h = inl (PatchError (HunkIncomplete num)).
Proof.
  intros (items & -> & Hstr). unfold resolve_hunk. simpl.
  destruct (dict_get items (lit "search_block"));
    destruct (dict_get items (lit "replace_block")); try reflexivity.
  discriminate.
Qed.

Lemma resolve_all_app file_lines before rest idx acc :
  resolve_all file_lines (before ++ rest) idx acc =
    match resolve_all file_lines before idx acc with
    | inl e => inl e
    | inr apps => resolve_all file_lines rest (idx + length before) apps
    end.
Proof.
  revert idx acc. induction before as [|h before IH]; intros idx acc; simpl.
  - now rewrite Nat.add_0_r.
  - destruct (resolve_hunk file_lines (idx + 1) h) as [e|app]; simpl;
      [reflexivity|].
    rewrite IH. now replace (S idx + length before) with (idx + S (length before)) by lia.
Qed.

Lemma resolve_all_placements file_lines hunks idx acc apps :
  placements_of file_lines hunks idx apps ->
  resolve_all file_lines hunks idx acc = inr (acc ++ apps).
Proof.
  revert idx acc apps.
  induction hunks as [|h rest IH]; intros idx acc apps [Hlen Hall].
  - destruct apps; [|discriminate]. simpl. now rewrite app_nil_r.
  - destruct apps as [|a apps]; [discriminate|]. simpl.
    destruct (Hall 0 h eq_refl) as (a' & [= <-] & Hres).
    rewrite Nat.add_0_r in Hres. rewrite Hres. simpl.
    rewrite (IH (S idx) (acc ++ [a]) apps), <- app_assoc; [reflexivity|].
    split; [simpl in Hlen; lia|].
    intros k h' Hk. destruct (Hall (S k) h' Hk) as (a'' & Ha & Hr).
    exists a''. split; [exact Ha|].
    now replace (S idx + k + 1) with (idx + S k + 1) by lia.
Qed.

(** The claim as stated fails: the second hunk is malformed, and the error
    that is reported is that the first hunk is not found. *)
Lemma malformed_hunk_not_reported_first :
  hunk_incomplete (PyDict []) /\
  apply_patch_text (lit "foo")
    (patch [hunk (lit "zzz") (lit "x"); PyDict []])
  = inl (PatchError (HunkNotFound 1)) /\
  apply_patch_text (lit "foo")
    (patch [hunk (lit "zzz") (lit "x"); PyDict []])
  <> inl (PatchError (HunkIncomplete 2)).
Proof.
  split; [|split].
  - exists []. auto.
  - vm_compute. reflexivity.
  - vm_compute. discriminate.
Qed.

(** C7, amended.  When the hunks array holds a malformed hunk, the
    operation raises and [file_lines] is not mutated.  The hunks are
    validated one at a time, each just before it is located: the error is
    the one that the first loop meets on the hunks in front of the malformed
    one, if one of them fails; when every hunk in front of the malformed
    one resolves to a placement, it is the malformed-patch error with the
    number of that hunk, whatever follows it in the array, and neither it
    nor a later hunk is located. *)
Theorem malformed_hunk_reported (text : pystr) (patch_obj : pyval)
    (before after : list pyval) (h : pyval) :
  py_get patch_obj (lit "hunks") = inr (PyList (before ++ h :: after)) ->
  hunk_incomplete h ->
  run_apply_patch_text text patch_obj
  = (inl match resolve_all (buffer_lines text) before 0 [] with
         | inl e => e
         | inr _ => PatchError (HunkIncomplete (length before + 1))
         end,
     buffer_lines text) /\
  forall apps,
    placements_of (buffer_lines text) before 0 apps ->
    run_apply_patch_text text patch_obj
    = (inl (PatchError (HunkIncomplete (length before + 1))),
       buffer_lines text).
Proof.
  intros Hh Hinc. rewrite (run_apply_patch_text_phases _ _ _ Hh).
  rewrite resolve_all_app. simpl.
  split.
  - destruct (resolve_all (buffer_lines text) before 0 []) as [e|apps];
      [reflexivity|].
    simpl. rewrite resolve_hunk_incomplete by exact Hinc. reflexivity.
  - intros apps Hpl.
    rewrite (resolve_all_placements _ _ _ _ _ Hpl). simpl.
    rewrite resolve_hunk_incomplete by exact Hinc. reflexivity.
Qed.

Lemma malformed_hunk_reported_witness :
  run_apply_patch_text (lit "foo" ++ [LF] ++ lit "bar")
    (patch [hunk (lit "bar") (lit "baz");
            PyDict [(lit "search_block", PyStr (lit "foo"))];
            hunk (lit "zzz") (lit "x")])
  = (inl (PatchError (HunkIncomplete 2)),
     buffer_lines (lit "foo" ++ [LF] ++ lit "bar")).
Proof.
  refine (proj2 (malformed_hunk_reported (lit "foo" ++ [LF] ++ lit "bar")
            (patch [hunk (lit "bar") (lit "baz");
                    PyDict [(lit "search_block", PyStr (lit "foo"))];
                    hunk (lit "zzz") (lit "x")])
            [hunk (lit "bar") (lit "baz")] [hunk (lit "zzz") (lit "x")]
            (PyDict [(lit "search_block", PyStr (lit "foo"))]) eq_refl _)
            [mkApplication 1 2 (block_lines (lit "baz"))] _).
  - eexists. split; [reflexivity|]. vm_compute. reflexivity.
  - split; [reflexivity|].
    intros [|k] h' Hk; [|destruct k; discriminate].
    injection Hk as <-. eexists. split; [reflexivity|].
    vm_compute. reflexivity.
Defined.

(** ** C9: the two modes on contents without foreign edge whitespace *)

Lemma ws_run_lstrip s : s = ws_run s ++ lstrip s.
Proof.
  induction s as [|c s IH]; simpl; [reflexivity|].
  destruct (py_isspace c); simpl; [now f_equal | reflexivity].
Qed.

Lemma lstrip_id s : ws_run s = [] -> lstrip s = s.
Proof. intros H. rewrite (ws_run_lstrip s) at 2. now rewrite H. Qed.

Lemma strip_id s : ws_run s = [] -> ws_run (rev s) = [] -> strip s = s.
Proof.
  intros Hl Hr. unfold strip. rewrite (lstrip_id s Hl), (lstrip_id _ Hr).
  apply rev_involutive.
Qed.

Lemma ws_run_app a b : exists t, ws_run (a ++ b) = ws_run a ++ t.
Proof.
  induction a as [|c a [t IH]]; simpl; [eauto|].
  destruct (py_isspace c); [|exists []; reflexivity].
  exists t. now rewrite IH.
Qed.

Lemma forallb_blank_no_LF g : forallb is_blank g = true -> ~ In LF g.
Proof.
  intros Hb Hin. rewrite forallb_forall in Hb. specialize (Hb _ Hin).
  discriminate.
Qed.

(** Stripping keeps a line feed that is not part of the edge whitespace. *)
Lemma strip_keeps_LF s :
  edges_blank s = true -> In LF s -> In LF (strip s).
Proof.
  intros [Hl Hr]%andb_prop Hin. unfold strip.
  assert (Ht : In LF (lstrip s)).
  { rewrite (ws_run_lstrip s), in_app_iff in Hin.
    destruct Hin as [Hin|]; [|assumption].
    now apply forallb_blank_no_LF in Hin. }
  apply in_rev in Ht. apply in_rev. rewrite rev_involutive.
  rewrite (ws_run_lstrip (rev (lstrip s))), in_app_iff in Ht.
  destruct Ht as [Ht|]; [exfalso|assumption].
  rewrite (ws_run_lstrip s), rev_app_distr in Hr.
  destruct (ws_run_app (rev (lstrip s)) (rev (ws_run s))) as [t Hrun].
  rewrite Hrun, forallb_app in Hr. apply andb_prop in Hr as [Hr _].
  now apply forallb_blank_no_LF in Hr.
Qed.

Lemma is_blank_isspace c : is_blank c = true -> py_isspace c = true.
Proof.
  unfold is_blank, SPACE, TAB.
  intros [->%N.eqb_eq | ->%N.eqb_eq]%orb_prop; reflexivity.
Qed.

(** A content that the pattern produced has no whitespace at its ends once
    all of its edge whitespace is space or tab. *)
Lemma matched_content_strip line g1 g2 g3 :
  re_match_line line = Some (g1, g2, g3) ->
  edges_blank g2 = true -> strip g2 = g2.
Proof.
  intros Hm [Hl Hr]%andb_prop. apply strip_id.
  - destruct g2 as [|c g2]; [reflexivity|]. simpl in *.
    destruct (py_isspace c); [|reflexivity].
    simpl in Hl. apply andb_prop in Hl as [Hc _].
    apply re_match_line_content_head in Hm. congruence.
  - destruct (rev g2) as [|c r] eqn:Hrev; [reflexivity|]. simpl in *.
    destruct (py_isspace c); [|reflexivity].
    simpl in Hr. apply andb_prop in Hr as [Hc _].
    assert (Hg : g2 = rev r ++ [c]).
    { rewrite <- (rev_involutive g2), Hrev. reflexivity. }
    rewrite Hg in Hm. apply re_match_line_content_last in Hm. congruence.
Qed.

Lemma forallb_is_dot_no_LF s : forallb is_dot s = true <-> ~ In LF s.
Proof.
  rewrite forallb_forall. unfold is_dot. split.
  - intros H Hin. specialize (H _ Hin). discriminate.
  - intros H c Hc. destruct (N.eqb_spec c LF); [subst; contradiction|].
    reflexivity.
Qed.

(** The content of a tokenized line, of any physical line: stripping does
    nothing to it, or it holds a line feed that stripping keeps. *)
Lemma content_strip_cases line :
  let c := content (StructuredLine_init line) in
  edges_blank c = true ->
  strip c = c \/ (In LF c /\ In LF (strip c)).
Proof.
  unfold StructuredLine_init.
  destruct (re_match_line line) as [[[g1 g2] g3]|] eqn:Hm; simpl; intros He.
  - left. eapply matched_content_strip; eauto.
  - right. assert (Hin : In LF line).
    { destruct (in_dec N.eq_dec LF line) as [|Hn]; [assumption|].
      apply forallb_is_dot_no_LF, re_match_line_complete in Hn.
      rewrite Hm in Hn. destruct Hn as [? [=]]. }
    split; [exact Hin | now apply strip_keeps_LF].
Qed.

(** The content of a tokenized line without line feed. *)
Lemma content_strip_no_LF line :
  ~ In LF line ->
  let c := content (StructuredLine_init line) in
  edges_blank c = true -> strip c = c /\ ~ In LF c.
Proof.
  intros Hn. unfold StructuredLine_init.
  destruct (re_match_line line) as [[[g1 g2] g3]|] eqn:Hm; simpl; intros He.
  - split; [eapply matched_content_strip; eauto|].
    apply re_match_line_sound in Hm as (rest & _ & _ & _ & Hd & _).
    now apply forallb_is_dot_no_LF.
  - apply forallb_is_dot_no_LF, re_match_line_complete in Hn.
    rewrite Hm in Hn. destruct Hn as [? [=]].
Qed.

(** The lines [re.split] cuts a block into hold no line feed. *)
Lemma re_split_go_no_LF cur s :
  ~ In LF cur -> Forall (fun l => ~ In LF l) (re_split_go cur s).
Proof.
  remember (length s) as n eqn:Hn. revert cur s Hn.
  induction n as [n IH] using lt_wf_ind. intros cur [|c s1] Hn Hcur; simpl.
  - repeat constructor. exact Hcur.
  - simpl in Hn.
    assert (Hnil : ~ In LF []) by (intros []).
    assert (Hsnoc : (c =? LF)%N = false -> ~ In LF (cur ++ [c])).
    { intros Hc [Hin|[->|[]]]%in_app_iff; [auto|]. discriminate. }
    destruct (N.eqb_spec c CR) as [->|Hcr].
    + destruct s1 as [|d s2]; [simpl; repeat constructor; now apply Hsnoc|].
      simpl in Hn. destruct (d =? LF)%N.
      * constructor; [exact Hcur|].
        eapply (IH (length s2)); [lia | reflexivity | exact Hnil].
      * eapply (IH (length (d :: s2)));
          [simpl; lia | reflexivity | now apply Hsnoc].
    + destruct (c =? LF)%N eqn:Hlf.
      * constructor; [exact Hcur|].
        eapply (IH (length s1)); [lia | reflexivity | exact Hnil].
      * eapply (IH (length s1)); [lia | reflexivity | now apply Hsnoc].
Qed.

Lemma contents_differ_modes f_line s_line :
  strip (content f_line) = content f_line \/
  (In LF (content f_line) /\ In LF (strip (content f_line))) ->
  strip (content s_line) = content s_line -> ~ In LF (content s_line) ->
  contents_differ false f_line s_line = contents_differ true f_line s_line.
Proof.
  intros Hf Hs Hn. unfold contents_differ. simpl. rewrite Hs.
  destruct Hf as [->|[Hin Hin']]; [reflexivity|].
  rewrite !bool_decide_eq_false_2; [reflexivity | |]; intros Heq;
    apply Hn; now rewrite <- Heq.
Qed.

Lemma window_matches_modes raw search_lines pos :
  Forall (fun l => edges_blank (content l) = true)
    (map StructuredLine_init raw) ->
  Forall (fun l => strip (content l) = content l /\ ~ In LF (content l))
    search_lines ->
  window_matches (map StructuredLine_init raw) false pos search_lines
  = window_matches (map StructuredLine_init raw) true pos search_lines.
Proof.
  intros Hf Hs. revert pos.
  induction Hs as [|s_line rest [Hstrip Hn] _ IH]; intros pos; simpl;
    [reflexivity|].
  destruct (map StructuredLine_init raw !! pos) as [f_line|] eqn:Hpos;
    [|reflexivity].
  rewrite IH. f_equal. f_equal.
  apply contents_differ_modes; auto.
  pose proof (Forall_lookup_1 _ _ _ _ Hf Hpos) as He. simpl in He.
  apply list_lookup_fmap_Some in Hpos as (line & -> & _).
  now apply content_strip_cases.
Qed.

(** C9.  Let the buffer lines be the tokenized physical lines of any list
    of strings, and the search lines the tokenized lines of a search block.
    If the whitespace at the two ends of every content is made of spaces
    and tabs only, that is, no content has leading or trailing whitespace
    outside the space/tab set, then [locate_hunk] returns the same list of
    start indices in the exact and in the tolerant mode. *)
Theorem locate_hunk_modes_coincide (raw : list pystr) (s_blk : pystr) :
  let file_lines := map StructuredLine_init raw in
  let search_lines := block_lines s_blk in
  Forall (fun l => edges_blank (content l) = true) file_lines ->
  Forall (fun l => edges_blank (content l) = true) search_lines ->
  locate_hunk file_lines search_lines false
  = locate_hunk file_lines search_lines true.
Proof.
  intros file_lines search_lines Hf Hs.
  rewrite !locate_hunk_located. f_equal. unfold located.
  destruct search_lines as [|s_line rest] eqn:Hsl; [reflexivity|].
  rewrite <- Hsl in *.
  destruct (length file_lines <? length search_lines); [reflexivity|].
  apply filter_ext. intros st. apply window_matches_modes; [exact Hf|].
  unfold search_lines, block_lines in *.
  pose proof (re_split_go_no_LF [] s_blk (fun H => H)) as Hno.
  fold (re_split_newlines s_blk) in Hno.
  clear Hsl. induction Hno as [|line lines Hline _ IH]; simpl in *;
    [constructor|].
  apply Forall_cons in Hs as [He Hs].
  constructor; [now apply content_strip_no_LF | now apply IH].
Qed.

Lemma locate_hunk_modes_coincide_witness :
  locate_hunk
    (map StructuredLine_init [lit "  foo "; [TAB] ++ lit "bar"; lit "foo"])
    (block_lines (lit " foo"))
    true = inr [0; 2].
Proof.
  rewrite <- (locate_hunk_modes_coincide
                [lit "  foo "; [TAB] ++ lit "bar"; lit "foo"] (lit " foo")).
  - vm_compute. reflexivity.
  - repeat constructor.
  - repeat constructor.
Defined.

(** Outside the hypothesis the modes differ: a form feed is whitespace for
    [strip] but is not taken out of the content by the tokenizer. *)
Example modes_differ_on_form_feed :
  locate_hunk (map StructuredLine_init [[12%N] ++ lit "foo"])
    (block_lines (lit "foo")) false = inr [] /\
  locate_hunk (map StructuredLine_init [[12%N] ++ lit "foo"])
    (block_lines (lit "foo")) true = inr [0].
Proof. vm_compute. split; reflexivity. Qed.

(** ** C8: a patch whose replace blocks equal its search blocks *)

(** The claim as stated fails.  The buffer line is a form feed followed by
    foo; the tokenizer leaves the form feed in the content, so the exact
    mode does not find foo, the tolerant mode does, and the content of the
    line is overwritten with foo: the form feed is lost. *)
Lemma identity_patch_changes_text :
  same_blocks (hunk (lit "foo") (lit "foo")) (lit "foo") /\
  apply_patch_text ([12%N] ++ lit "foo") (patch [hunk (lit "foo") (lit "foo")])
  = inr (lit "foo") /\
  lit "foo" <> [12%N] ++ lit "foo".
Proof.
  split; [|split].
  - split; reflexivity.
  - vm_compute. reflexivity.
  - vm_compute. discriminate.
Qed.

Lemma set_content_same l : set_content l (content l) = l.
Proof. destruct l; reflexivity. Qed.

(** On a window that matches in the exact mode the loop rebuilds the
    lines that are already there. *)
Lemma new_lines_from_exact st start end_ indent r_lines :
  forall i,
    window_matches st false (start + i) r_lines = true ->
    start + i + length r_lines <= end_ ->
    new_lines_from st start end_ indent i r_lines
    = take (length r_lines) (drop (start + i) st).
Proof.
  induction r_lines as [|rl rest IH]; intros i Hw Hend; simpl in *.
  - reflexivity.
  - destruct (st !! (start + i)) as [f_line|] eqn:Hf; [|discriminate].
    apply andb_prop in Hw as [Hc Hw].
    unfold contents_differ in Hc. simpl in Hc.
    apply negb_true_iff, negb_false_iff, bool_decide_eq_true in Hc.
    rewrite (drop_S _ _ _ Hf). simpl.
    unfold new_line at 1. rewrite Hf.
    destruct (Nat.ltb_spec (start + i) end_); [|lia]. simpl.
    rewrite <- Hc, set_content_same. f_equal.
    replace (S (start + i)) with (start + S i) in * by lia.
    apply IH; [exact Hw | lia].
Qed.

Lemma apply_application_identity st blk m :
  located st (block_lines blk) false = [m] ->
  apply_application (placement blk blk m) st = (inr tt, st).
Proof.
  intros Hloc.
  assert (Hm : m ∈ located st (block_lines blk) false).
  { rewrite Hloc. apply list_elem_of_here. }
  apply located_spec in Hm as (Hpos & Hend & Hw).
  rewrite apply_application_spec by (simpl; lia).
  unfold spliced_lines. simpl.
  rewrite new_lines_from_exact;
    [|now rewrite Nat.add_0_r | lia].
  rewrite Nat.add_0_r.
  rewrite <- drop_drop, take_drop, take_drop. reflexivity.
Qed.

Lemma apply_applications_identity apps st :
  Forall (fun a => apply_application a st = (inr tt, st)) apps ->
  apply_applications apps st = (inr tt, st).
Proof.
  induction 1 as [|a apps Ha _ IH]; simpl; [reflexivity|].
  unfold m_bind. rewrite Ha. exact IH.
Qed.

(** C8, amended.  Let every hunk of the patch have a replace block equal
    to its search block and be found by the exact mode, and let no physical
    line of the buffer have a lone final line feed.  If [apply_patch_text]
    returns, it returns the original text. *)
Theorem identity_patch_exact (text : pystr) (patch_obj : pyval)
    (hunks : list pyval) (out : pystr) :
  py_get patch_obj (lit "hunks") = inr (PyList hunks) ->
  Forall (fun h => exists blk,
            same_blocks h blk /\
            locate_hunk (buffer_lines text) (block_lines blk) false
            <> inr []) hunks ->
  Forall (fun line => lone_final_newline line = false)
    (split_lines_preserve text (detect_newline text)) ->
  apply_patch_text text patch_obj = inr out ->
  out = text.
Proof.
  intros Hh Hsame Hlines. unfold apply_patch_text.
  rewrite (run_apply_patch_text_phases _ _ _ Hh).
  destruct (resolve_all (buffer_lines text) hunks 0 []) as [e|apps] eqn:Hres;
    [discriminate|].
  destruct (check_overlaps apps); [discriminate|].
  apply resolve_all_inr in Hres as (apps' & -> & Hlen & Hall). simpl.
  rewrite apply_applications_identity.
  - simpl. intros [= <-]. now apply reassemble_buffer_lines.
  - rewrite <- sorted_by_start_reverse_perm.
    apply Forall_lookup. intros k a Ha.
    destruct (lookup_lt_is_Some_2 hunks k) as [h Hk].
    { rewrite <- Hlen. eapply lookup_lt_Some; eauto. }
    destruct (Hall k h Hk) as (a' & Ha' & Hr).
    assert (a' = a) as -> by congruence.
    pose proof (Forall_lookup_1 _ _ _ _ Hsame Hk)
      as (blk & [Hs Hb] & Hexact).
    apply resolve_hunk_inr in Hr
      as (s_blk & r_blk & m & Hs' & Hb' & -> & Hloc).
    assert (s_blk = blk) as -> by congruence.
    assert (r_blk = blk) as -> by congruence.
    rewrite locate_hunk_located in Hexact.
    destruct Hloc as [Hloc|[Hnone _]]; [|congruence].
    now apply apply_application_identity.
Qed.

Lemma identity_patch_exact_witness :
  apply_patch_text (lit "  foo " ++ [LF] ++ lit "bar")
    (patch [hunk (lit "bar") (lit "bar"); hunk (lit "foo") (lit "foo")])
  = inr (lit "  foo " ++ [LF] ++ lit "bar").
Proof.
  destruct (apply_patch_text (lit "  foo " ++ [LF] ++ lit "bar")
      (patch [hunk (lit "bar") (lit "bar"); hunk (lit "foo") (lit "foo")]))
    as [e|out] eqn:Hrun; [vm_compute in Hrun; discriminate|].
  f_equal.
  apply (identity_patch_exact (lit "  foo " ++ [LF] ++ lit "bar")
           (patch [hunk (lit "bar") (lit "bar"); hunk (lit "foo") (lit "foo")])
           [hunk (lit "bar") (lit "bar"); hunk (lit "foo") (lit "foo")] out).
  - reflexivity.
  - repeat constructor.
    + exists (lit "bar"). repeat split. vm_compute. discriminate.
    + exists (lit "foo"). repeat split. vm_compute. discriminate.
  - vm_compute. repeat constructor.
  - exact Hrun.
Defined.

(** * Further properties of the code *)

(** ** [StructuredLine]: the three parts of a line *)

(** When the content group is empty the trailing group is empty too: the
    greedy first group has taken all the spaces and tabs. *)
Lemma re_match_line_empty_content line g1 g3 :
  re_match_line line = Some (g1, [], g3) -> g3 = [].
Proof.
  unfold re_match_line.
  destruct (greedy_star _ _ line) as [[m1 [m2 [m3 u]]]|] eqn:H1; [|discriminate].
  intros [= -> -> ->]. destruct g3 as [|c g3]; [reflexivity|exfalso].
  pose proof (greedy_star_sound _ _ _ _ _ H1) as (r1 & Hline & _ & H2).
  pose proof (lazy_star_sound _ _ _ _ _ H2) as (r2 & -> & _ & H3).
  pose proof (greedy_star_sound _ _ _ _ _ H3) as (r3 & -> & Hb & H4).
  simpl in Hline, Hb. apply andb_prop in Hb as [Hc Hb].
  pose proof (greedy_star_maximal _ _ _ _ _ _ _ H1 Hline Hc) as Hmax.
  destruct (greedy_star_complete is_blank at_dollar g3 r3 u Hb H4) as [x Hx].
  destruct (lazy_star_complete is_dot (greedy_star is_blank at_dollar)
              [] (g3 ++ r3) x eq_refl Hx) as [y Hy].
  destruct (greedy_star_stop is_blank _ _ _ Hy) as [z Hz].
  simpl in Hz. congruence.
Qed.

(** The match on a line without line feed. *)
Lemma re_match_line_no_LF line :
  ~ In LF line ->
  exists g1 g2 g3,
    re_match_line line = Some (g1, g2, g3) /\ line = g1 ++ g2 ++ g3 /\
    forallb is_blank g1 = true /\ forallb is_blank g3 = true /\
    (forall c, head g2 = Some c -> is_blank c = false) /\
    (forall c, last g2 = Some c -> is_blank c = false) /\
    (g2 = [] -> g3 = []).
Proof.
  intros Hn.
  destruct (re_match_line_complete line) as [[[g1 g2] g3] Hm];
    [now apply forallb_is_dot_no_LF|].
  exists g1, g2, g3. split; [exact Hm|].
  pose proof (re_match_line_sound _ _ _ _ Hm)
    as (rest & Hline & Hrest & H1 & H2 & H3).
  assert (rest = []) as ->.
  { destruct Hrest as [->| ->]; [reflexivity|]. exfalso. apply Hn.
    rewrite Hline, !in_app_iff. simpl. auto. }
  rewrite app_nil_r in Hline. repeat split; auto.
  - intros c Hc. destruct g2 as [|c' g2]; [discriminate|].
    injection Hc as ->. eapply re_match_line_content_head; eauto.
  - intros c Hc. apply last_Some in Hc as [g2' ->].
    eapply re_match_line_content_last; eauto.
  - intros ->. eapply re_match_line_empty_content; eauto.
Qed.

(** X1.  On every physical line without line feed the tokenizer keeps the
    line, its three parts concatenate to the line, the indent and the
    trailing part consist of spaces and tabs, the content neither starts
    nor ends with a space or a tab, and a line of spaces and tabs only is
    all indent: when the content is empty so is the trailing part. *)
Theorem StructuredLine_init_parts (line : pystr) :
  ~ In LF line ->
  let l := StructuredLine_init line in
  original_line l = line /\
  indent l ++ content l ++ trailing l = line /\
  forallb is_blank (indent l) = true /\
  forallb is_blank (trailing l) = true /\
  (forall c, head (content l) = Some c -> is_blank c = false) /\
  (forall c, last (content l) = Some c -> is_blank c = false) /\
  (content l = [] -> trailing l = [] /\ indent l = line).
Proof.
  intros Hn.
  destruct (re_match_line_no_LF line Hn)
    as (g1 & g2 & g3 & Hm & Hline & H1 & H3 & Hh & Hl & He).
  unfold StructuredLine_init. rewrite Hm. simpl.
  repeat split; auto.
  subst g2. rewrite (He eq_refl) in Hline. now rewrite app_nil_r in Hline.
Qed.

Lemma StructuredLine_init_parts_witness :
  indent (StructuredLine_init ([TAB] ++ lit " a b  "))
  ++ content (StructuredLine_init ([TAB] ++ lit " a b  "))
  ++ trailing (StructuredLine_init ([TAB] ++ lit " a b  "))
  = [TAB] ++ lit " a b  ".
Proof.
  apply (StructuredLine_init_parts ([TAB] ++ lit " a b  ")).
  vm_compute. intros H.
  repeat (destruct H as [H|H]; [discriminate|]). exact H.
Defined.

Lemma blank_run_drop_blank s : s = blank_run s ++ drop_blank s.
Proof.
  induction s as [|c s IH]; simpl; [reflexivity|].
  destruct (is_blank c); simpl; [now f_equal | reflexivity].
Qed.

Lemma blank_run_app a b :
  forallb is_blank a = true -> blank_run (a ++ b) = a ++ blank_run b.
Proof.
  induction a as [|c a IH]; simpl; [reflexivity|].
  intros [-> Ha]%andb_prop. now rewrite IH.
Qed.

Lemma drop_blank_app a b :
  forallb is_blank a = true -> drop_blank (a ++ b) = drop_blank b.
Proof.
  induction a as [|c a IH]; simpl; [reflexivity|].
  intros [-> Ha]%andb_prop. auto.
Qed.

Lemma blank_run_head s :
  (forall c, head s = Some c -> is_blank c = false) ->
  blank_run s = [] /\ drop_blank s = s.
Proof.
  destruct s as [|c s]; simpl; [auto|].
  intros H. now rewrite (H c eq_refl).
Qed.

Lemma head_rev_last {A} (s : list A) : head (rev s) = last s.
Proof.
  induction s as [|c s IH] using rev_ind; [reflexivity|].
  rewrite rev_app_distr, last_snoc. reflexivity.
Qed.

Lemma forallb_rev {A} (p : A -> bool) s :
  forallb p s = true -> forallb p (rev s) = true.
Proof.
  rewrite !forallb_forall. intros H c Hc%in_rev. auto.
Qed.

(** X2.  On a line without line feed the backtracking match of the
    pattern computes the direct decomposition: the indent is the maximal
    leading run of spaces and tabs, the trailing part is the maximal
    trailing run of spaces and tabs of what is left, and the content is
    what lies between them. *)
Theorem StructuredLine_init_direct (line : pystr) :
  ~ In LF line ->
  (indent (StructuredLine_init line), content (StructuredLine_init line),
   trailing (StructuredLine_init line)) = tokenize_direct line.
Proof.
  intros Hn.
  destruct (re_match_line_no_LF line Hn)
    as (g1 & g2 & g3 & Hm & -> & H1 & H3 & Hh & Hl & He).
  unfold StructuredLine_init. rewrite Hm. simpl. unfold tokenize_direct.
  assert (Hrest : blank_run (g2 ++ g3) = [] /\ drop_blank (g2 ++ g3) = g2 ++ g3).
  { destruct g2 as [|c g2]; [rewrite (He eq_refl); auto|].
    apply blank_run_head. simpl. exact Hh. }
  destruct Hrest as [Hr1 Hr2].
  rewrite blank_run_app, drop_blank_app, Hr1, Hr2, app_nil_r by assumption.
  rewrite rev_app_distr.
  destruct (blank_run_head (rev g2)) as [Hv1 Hv2].
  { intros c. rewrite head_rev_last. apply Hl. }
  rewrite blank_run_app, drop_blank_app, Hv1, Hv2, app_nil_r
    by now apply forallb_rev.
  now rewrite !rev_involutive.
Qed.

Lemma StructuredLine_init_direct_witness :
  (indent (StructuredLine_init (lit "  x = 1 ")),
   content (StructuredLine_init (lit "  x = 1 ")),
   trailing (StructuredLine_init (lit "  x = 1 ")))
  = (lit "  ", lit "x = 1", lit " ").
Proof.
  rewrite (StructuredLine_init_direct (lit "  x = 1 ")).
  - vm_compute. reflexivity.
  - vm_compute. intros H.
    repeat (destruct H as [H|H]; [discriminate|]). exact H.
Defined.

Lemma lone_final_newline_elim line :
  lone_final_newline line = true ->
  exists body, line = body ++ [LF] /\ forallb is_dot body = true.
Proof.
  unfold lone_final_newline. destruct (rev line) as [|c r] eqn:Hrev;
    [discriminate|].
  intros [Hc Hr]%andb_prop. apply N.eqb_eq in Hc as ->.
  exists (rev r). split.
  - rewrite <- (rev_involutive line), Hrev. reflexivity.
  - now apply forallb_rev.
Qed.

(** X3.  [reconstruct] gives back the physical line the object was made
    from, except for one case: a line that ends with its only line feed
    comes back without it. *)
Theorem reconstruct_StructuredLine_init_iff (line : pystr) :
  (reconstruct (StructuredLine_init line) = line
   <-> lone_final_newline line = false) /\
  (lone_final_newline line = true ->
   reconstruct (StructuredLine_init line) ++ [LF] = line).
Proof.
  assert (Hbad : lone_final_newline line = true ->
                 reconstruct (StructuredLine_init line) ++ [LF] = line).
  { intros (body & -> & Hb)%lone_final_newline_elim.
    now rewrite reconstruct_lone_final_newline. }
  split; [|exact Hbad]. split.
  - intros Heq. destruct (lone_final_newline line) eqn:Hl; [|reflexivity].
    specialize (Hbad eq_refl). rewrite Heq in Hbad.
    apply (f_equal length) in Hbad. rewrite length_app in Hbad.
    simpl in Hbad. lia.
  - apply reconstruct_StructuredLine_init.
Qed.

(** ** [split_lines_preserve]: the physical lines *)

Lemma starts_with_app_r sub t u :
  starts_with sub t = true -> starts_with sub (t ++ u) = true.
Proof.
  revert t. induction sub as [|a sub IH]; intros [|b t]; simpl; try easy.
  intros [-> Ht]%andb_prop. simpl. auto.
Qed.

Lemma str_contains_suffixes sep cur :
  sep <> [] ->
  (forall a t, cur = a ++ t -> t <> [] -> starts_with sep t = false) ->
  str_contains sep cur = false.
Proof.
  intros Hsep. induction cur as [|c cur IH]; intros H; simpl.
  - destruct sep; [contradiction|reflexivity].
  - rewrite (H [] (c :: cur)) by easy. simpl. apply IH.
    intros a t -> Ht. apply (H (c :: a) t); easy.
Qed.

Lemma split_go_pieces sep s :
  sep <> [] ->
  forall skip cur,
    skip = 0 \/ cur = [] ->
    (forall a t, cur = a ++ t -> t <> [] -> starts_with sep (t ++ s) = false) ->
    Forall (fun p => str_contains sep p = false) (split_go sep skip cur s).
Proof.
  intros Hsep. induction s as [|c s IH]; intros skip cur Hskip Hinv; simpl.
  - repeat constructor. apply str_contains_suffixes; [exact Hsep|].
    intros a t Hc Ht. specialize (Hinv a t Hc Ht).
    now rewrite app_nil_r in Hinv.
  - destruct skip as [|k].
    + destruct (starts_with sep (c :: s)) eqn:Hs.
      * constructor.
        -- apply str_contains_suffixes; [exact Hsep|].
           intros a t Hc Ht. specialize (Hinv a t Hc Ht).
           destruct (starts_with sep t) eqn:Hst; [|reflexivity].
           now rewrite (starts_with_app_r _ _ (c :: s) Hst) in Hinv.
        -- apply IH; [now right|]. intros a t Hc Ht.
           destruct a; destruct t; try discriminate. contradiction.
      * apply IH; [now left|]. intros a t Hc Ht.
        destruct t as [|x t _] using rev_ind; [contradiction|].
        rewrite app_assoc in Hc. apply app_inj_tail in Hc as [-> ->].
        rewrite <- app_assoc. simpl.
        destruct t as [|y t]; [exact Hs|].
        apply (Hinv a (y :: t)); easy.
    + destruct Hskip as [Hk | ->]; [discriminate|].
      apply IH; [now right|]. intros a t Hc Ht.
      destruct a; destruct t; try discriminate. contradiction.
Qed.

(** X4.  For every text and every non-empty newline string,
    [split_lines_preserve] returns at least one line, joining its lines
    with the newline gives the text back, and no line contains the
    newline. *)
Theorem split_lines_preserve_lines (text newline : pystr) :
  newline <> [] ->
  split_lines_preserve text newline <> [] /\
  str_join newline (split_lines_preserve text newline) = text /\
  Forall (fun line => str_contains newline line = false)
    (split_lines_preserve text newline).
Proof.
  intros Hsep. unfold split_lines_preserve.
  destruct text as [|c text].
  - repeat split; [discriminate|].
    repeat constructor. destruct newline; [contradiction|reflexivity].
  - unfold str_split. repeat split.
    + destruct (split_go_cons newline 0 [] (c :: text)) as (x & l & ->).
      discriminate.
    + now rewrite str_join_split_go.
    + apply split_go_pieces; [exact Hsep | now left |].
      intros a t Hc Ht. destruct a; destruct t; try discriminate.
      contradiction.
Qed.

Lemma split_lines_preserve_lines_witness :
  str_join [CR; LF]
    (split_lines_preserve (lit "a" ++ [CR; LF; CR; LF] ++ lit "b" ++ [LF])
       [CR; LF])
  = lit "a" ++ [CR; LF; CR; LF] ++ lit "b" ++ [LF].
Proof.
  apply (split_lines_preserve_lines
           (lit "a" ++ [CR; LF; CR; LF] ++ lit "b" ++ [LF]) [CR; LF]).
  discriminate.
Defined.

Lemma str_contains_single c s : str_contains [c] s = false -> ~ In c s.
Proof.
  induction s as [|d s IH]; simpl; [tauto|].
  intros [Hd Hs]%orb_false_elim [->|Hin]; [|now apply IH].
  now rewrite N.eqb_refl in Hd.
Qed.

Lemma lone_final_newline_no_LF line :
  ~ In LF line -> lone_final_newline line = false.
Proof.
  intros Hn. destruct (lone_final_newline line) eqn:Hl; [|reflexivity].
  apply lone_final_newline_elim in Hl as (body & -> & _).
  exfalso. apply Hn, in_app_iff. simpl. auto.
Qed.

Lemma crlf_only_prev b s :
  head s <> Some LF -> crlf_only b s = crlf_only false s.
Proof.
  destruct s as [|c s]; simpl; [reflexivity|].
  intros Hc. destruct (N.eqb_spec c LF); [subst; contradiction|reflexivity].
Qed.

(** Split on CR LF, a text in which every line feed follows a carriage
    return has no line feed left in its lines. *)
Lemma split_go_crlf_only s :
  forall skip cur,
    ~ In LF cur ->
    (skip = 0 /\ crlf_only false s = true) \/
    (skip = 1 /\ exists s', s = LF :: s' /\ crlf_only false s' = true) ->
    Forall (fun p => ~ In LF p) (split_go [CR; LF] skip cur s).
Proof.
  induction s as [|c s IH]; intros skip cur Hcur Hst.
  - repeat constructor. exact Hcur.
  - destruct Hst as [[-> Hs]|[-> (s' & [= -> ->] & Hs)]].
    + change (split_go [CR; LF] 0 cur (c :: s))
        with (if starts_with [CR; LF] (c :: s)
              then cur :: split_go [CR; LF] 1 [] s
              else split_go [CR; LF] 0 (cur ++ [c]) s).
      simpl in Hs. apply andb_prop in Hs as [Hc Hs].
      assert (Hlf : c <> LF).
      { intros ->. discriminate. }
      destruct (starts_with [CR; LF] (c :: s)) eqn:Hsw.
      * constructor; [exact Hcur|].
        apply IH; [intros []|]. right. split; [reflexivity|].
        cbn [starts_with] in Hsw. apply andb_prop in Hsw as [Hcr Hsw].
        apply N.eqb_eq in Hcr as <-.
        destruct s as [|d s']; [discriminate|].
        cbn [starts_with] in Hsw.
        apply andb_prop in Hsw as [Hd _]. apply N.eqb_eq in Hd as <-.
        exists s'. split; [reflexivity|].
        simpl in Hs. exact Hs.
      * apply IH.
        -- intros [Hin|[->|[]]]%in_app_iff; [auto|contradiction].
        -- left. split; [reflexivity|].
           rewrite <- Hs. symmetry. apply crlf_only_prev.
           destruct (N.eqb_spec c CR) as [->|Hcr].
           ++ intros Hh. destruct s as [|d s']; [discriminate|].
              injection Hh as ->. discriminate.
           ++ intros Hh. destruct s as [|d s']; [discriminate|].
              injection Hh as ->. simpl in Hs. discriminate.
    + simpl. apply IH; [exact Hcur|]. left. auto.
Qed.

(** X5.  A text whose line endings are not mixed, that is, a text without
    CR LF or a text in which every line feed follows a carriage return,
    comes back unchanged from [apply_patch_text] with an empty hunk list. *)
Theorem apply_patch_text_roundtrip_unmixed (text : pystr) :
  str_contains [CR; LF] text = false \/ crlf_only false text = true ->
  apply_patch_text text (patch []) = inr text.
Proof.
  intros Hmix. apply apply_patch_text_no_hunks_roundtrip.
  eapply Forall_impl; [|intros line; apply lone_final_newline_no_LF].
  unfold detect_newline.
  destruct (str_contains [CR; LF] text) eqn:Hc.
  - destruct Hmix as [|Hs]; [discriminate|].
    unfold split_lines_preserve. destruct text as [|c text].
    + repeat constructor. intros [].
    + apply split_go_crlf_only; [intros []|]. left. auto.
  - assert (Hp : Forall (fun p => str_contains [LF] p = false)
                   (split_lines_preserve text [LF])).
    { unfold split_lines_preserve. destruct text as [|c text].
      - repeat constructor.
      - apply split_go_pieces; [discriminate | now left |].
        intros a t Hc' Ht. destruct a; destruct t; try discriminate.
        contradiction. }
    eapply Forall_impl; [exact Hp|]. intros line.
    apply str_contains_single.
Qed.

Lemma apply_patch_text_roundtrip_unmixed_witness :
  apply_patch_text (lit " a" ++ [CR; LF] ++ [TAB; CR; LF]) (patch [])
  = inr (lit " a" ++ [CR; LF] ++ [TAB; CR; LF]).
Proof.
  apply (apply_patch_text_roundtrip_unmixed
           (lit " a" ++ [CR; LF] ++ [TAB; CR; LF])).
  right. vm_compute. reflexivity.
Defined.

(** ** [locate_hunk]: the start indices *)

Lemma window_matches_spec file_lines floating search_lines :
  forall pos,
    window_matches file_lines floating pos search_lines = true <->
    forall j s_line, search_lines !! j = Some s_line ->
      exists f_line, file_lines !! (pos + j) = Some f_line /\
                     contents_differ floating f_line s_line = false.
Proof.
  induction search_lines as [|s rest IH]; intros pos; simpl.
  - split; [intros _ j s_line Hj; discriminate|reflexivity].
  - split.
    + destruct (file_lines !! pos) as [f|] eqn:Hf; [|discriminate].
      intros [Hc Hw]%andb_prop. apply negb_true_iff in Hc.
      intros [|j] s_line Hj; simpl in Hj.
      * injection Hj as <-. exists f. now rewrite Nat.add_0_r.
      * replace (pos + S j) with (S pos + j) by lia.
        now apply (proj1 (IH (S pos)) Hw).
    + intros H. destruct (H 0 s eq_refl) as (f & Hf & Hc).
      rewrite Nat.add_0_r in Hf. rewrite Hf, Hc. simpl.
      apply IH. intros j s_line Hj.
      replace (S pos + j) with (pos + S j) by lia. now apply H.
Qed.

Lemma filter_seq_sorted (p : nat -> bool) a n :
  StronglySorted lt (List.filter p (seq a n)).
Proof.
  revert a. induction n as [|n IH]; intros a; simpl; [constructor|].
  destruct (p a); [|apply IH].
  constructor; [apply IH|].
  apply List.Forall_forall. intros x [Hx _]%filter_In.
  apply in_seq in Hx. lia.
Qed.

(** X6.  [locate_hunk] never raises.  It returns, in strictly ascending
    order, exactly the indices [m] at which the whole window of search
    lines lies inside the buffer and every search line compares equal, in
    the given mode, to the buffer line at its offset; with no search lines
    it returns nothing. *)
Theorem locate_hunk_matches (file_lines search_lines : list StructuredLine)
    (floating : bool) :
  exists matches,
    locate_hunk file_lines search_lines floating = inr matches /\
    StronglySorted lt matches /\
    forall m,
      In m matches <->
      search_lines <> [] /\
      m + length search_lines <= length file_lines /\
      forall j s_line, search_lines !! j = Some s_line ->
        exists f_line, file_lines !! (m + j) = Some f_line /\
                       contents_differ floating f_line s_line = false.
Proof.
  exists (located file_lines search_lines floating).
  split; [apply locate_hunk_located|]. unfold located.
  destruct search_lines as [|s rest] eqn:Hsl.
  - split; [constructor|]. intros m. split; [intros []|]. now intros [? _].
  - rewrite <- Hsl. assert (Hne : search_lines <> []) by now rewrite Hsl.
    clear Hsl s rest.
    destruct (Nat.ltb_spec (length file_lines) (length search_lines)).
    + split; [constructor|]. intros m. split; [intros []|]. lia.
    + split; [apply filter_seq_sorted|]. intros m.
      rewrite filter_In, in_seq, window_matches_spec. split.
      * intros [Hm Hw]. repeat split; [exact Hne | lia | exact Hw].
      * intros (_ & Hm & Hw). split; [lia | exact Hw].
Qed.

Lemma contents_differ_exact_tolerant f_line s_line :
  contents_differ false f_line s_line = false ->
  contents_differ true f_line s_line = false.
Proof.
  unfold contents_differ. simpl.
  intros Hc%negb_false_iff%bool_decide_eq_true. rewrite Hc.
  apply negb_false_iff, bool_decide_eq_true. reflexivity.
Qed.

Lemma window_matches_exact_tolerant file_lines search_lines pos :
  window_matches file_lines false pos search_lines = true ->
  window_matches file_lines true pos search_lines = true.
Proof.
  rewrite !window_matches_spec. intros H j s_line Hj.
  destruct (H j s_line Hj) as (f & Hf & Hc). exists f.
  split; [exact Hf | now apply contents_differ_exact_tolerant].
Qed.

Lemma located_exact_tolerant file_lines search_lines m :
  In m (located file_lines search_lines false) ->
  In m (located file_lines search_lines true).
Proof.
  unfold located. destruct search_lines as [|s rest]; [easy|].
  destruct (length file_lines <? length (s :: rest)); [easy|].
  rewrite !filter_In. intros [Hm Hw]. split; [exact Hm|].
  now apply window_matches_exact_tolerant.
Qed.

(** X7.  The tolerant mode finds every start index that the exact mode
    finds. *)
Theorem locate_hunk_exact_in_tolerant
    (file_lines search_lines : list StructuredLine) :
  exists exact tolerant,
    locate_hunk file_lines search_lines false = inr exact /\
    locate_hunk file_lines search_lines true = inr tolerant /\
    forall m, In m exact -> In m tolerant.
Proof.
  exists (located file_lines search_lines false),
    (located file_lines search_lines true).
  split; [apply locate_hunk_located|]. split; [apply locate_hunk_located|].
  intros m. apply located_exact_tolerant.
Qed.

Lemma lookup_map {A B} (f : A -> B) (l : list A) i :
  map f l !! i = f <$> l !! i.
Proof.
  revert i. induction l as [|x l IH]; intros [|i]; simpl; auto.
Qed.

Lemma window_matches_contents fl fl' sl sl' floating :
  map content fl = map content fl' ->
  map content sl = map content sl' ->
  forall pos,
    window_matches fl floating pos sl = window_matches fl' floating pos sl'.
Proof.
  intros Hf. revert sl'.
  induction sl as [|s rest IH]; intros [|s' rest'] Hs pos; try discriminate;
    simpl; [reflexivity|].
  injection Hs as Hc Hrest.
  assert (Hpos : content <$> fl !! pos = content <$> fl' !! pos).
  { rewrite <- !lookup_map. now rewrite Hf. }
  destruct (fl !! pos) as [f|], (fl' !! pos) as [f'|]; try discriminate;
    [|reflexivity].
  injection Hpos as Hff. rewrite (IH rest' Hrest). f_equal.
  unfold contents_differ. now rewrite Hc, Hff.
Qed.

Lemma located_contents fl fl' sl sl' floating :
  map content fl = map content fl' ->
  map content sl = map content sl' ->
  located fl sl floating = located fl' sl' floating.
Proof.
  intros Hf Hs. unfold located.
  assert (Hlf : length fl = length fl').
  { apply (f_equal length) in Hf. now rewrite !length_map in Hf. }
  assert (Hls : length sl = length sl').
  { apply (f_equal length) in Hs. now rewrite !length_map in Hs. }
  destruct sl as [|s rest], sl' as [|s' rest']; try discriminate;
    [reflexivity|].
  rewrite Hlf, Hls. destruct (length fl' <? length (s' :: rest'));
    [reflexivity|].
  apply filter_ext. intros st. now apply window_matches_contents.
Qed.

Lemma drop_blank_all s : forallb is_blank s = true -> drop_blank s = [].
Proof.
  induction s as [|c s IH]; simpl; [reflexivity|].
  intros [-> Hs]%andb_prop. auto.
Qed.

Lemma drop_blank_app_r l t :
  drop_blank (l ++ t)
  = match drop_blank l with
    | [] => drop_blank t
    | d => d ++ t
    end.
Proof.
  induction l as [|c l IH]; simpl; [now destruct (drop_blank t)|].
  destruct (is_blank c); [exact IH | reflexivity].
Qed.

Lemma content_StructuredLine_init line :
  ~ In LF line ->
  content (StructuredLine_init line)
  = rev (drop_blank (rev (drop_blank line))).
Proof.
  intros Hn.
  destruct (re_match_line_no_LF line Hn)
    as (g1 & g2 & g3 & Hm & -> & H1 & H3 & Hh & Hl & He).
  unfold StructuredLine_init. rewrite Hm. simpl.
  rewrite drop_blank_app by exact H1.
  assert (Hrest : drop_blank (g2 ++ g3) = g2 ++ g3).
  { destruct g2 as [|c g2]; [now rewrite (He eq_refl)|].
    apply blank_run_head. simpl. exact Hh. }
  rewrite Hrest, rev_app_distr, drop_blank_app by now apply forallb_rev.
  destruct (blank_run_head (rev g2)) as [_ ->].
  { intros c. rewrite head_rev_last. apply Hl. }
  now rewrite rev_involutive.
Qed.

(** Spaces and tabs around a line do not change its content. *)
Lemma content_padded line line' :
  ~ In LF line -> padded line line' ->
  content (StructuredLine_init line') = content (StructuredLine_init line).
Proof.
  intros Hn (i & t & Hi & Ht & ->).
  assert (Hn' : ~ In LF (i ++ line ++ t)).
  { rewrite !in_app_iff.
    intros [H|[H|H]];
      [apply (forallb_blank_no_LF i Hi H) | auto
      |apply (forallb_blank_no_LF t Ht H)]. }
  rewrite !content_StructuredLine_init by assumption.
  rewrite drop_blank_app by exact Hi. rewrite drop_blank_app_r.
  destruct (drop_blank line) as [|d ds] eqn:Hd.
  - rewrite (drop_blank_all t Ht). reflexivity.
  - rewrite rev_app_distr, drop_blank_app by now apply forallb_rev.
    reflexivity.
Qed.

(** X8.  [locate_hunk] looks at the contents only: adding spaces and tabs
    in front of or behind buffer lines and search lines (lines without line
    feed) changes nothing in what it returns, in either mode. *)
Theorem locate_hunk_ignores_padding (raw raw' search search' : list pystr)
    (floating : bool) :
  Forall2 (fun l l' => ~ In LF l /\ padded l l') raw raw' ->
  Forall2 (fun l l' => ~ In LF l /\ padded l l') search search' ->
  locate_hunk (map StructuredLine_init raw')
    (map StructuredLine_init search') floating
  = locate_hunk (map StructuredLine_init raw)
      (map StructuredLine_init search) floating.
Proof.
  assert (Hc : forall l l',
             Forall2 (fun l l' => ~ In LF l /\ padded l l') l l' ->
             map content (map StructuredLine_init l')
             = map content (map StructuredLine_init l)).
  { induction 1 as [|x y l l' [Hn Hp] _ IH]; simpl; [reflexivity|].
    now rewrite IH, (content_padded x y). }
  intros Hr Hs. rewrite !locate_hunk_located. f_equal.
  apply located_contents; auto.
Qed.

Lemma locate_hunk_ignores_padding_witness :
  locate_hunk
    (map StructuredLine_init [lit "    foo"; [TAB] ++ lit "bar  "])
    (map StructuredLine_init [lit "  bar"]) false
  = locate_hunk
      (map StructuredLine_init [lit "foo"; lit "bar"])
      (map StructuredLine_init [lit "bar"]) false.
Proof.
  apply (locate_hunk_ignores_padding
           [lit "foo"; lit "bar"] [lit "    foo"; [TAB] ++ lit "bar  "]
           [lit "bar"] [lit "  bar"] false).
  - repeat constructor.
    + vm_compute. intros H. repeat (destruct H as [H|H]; [discriminate|]).
      exact H.
    + exists (lit "    "), []. repeat split.
    + vm_compute. intros H. repeat (destruct H as [H|H]; [discriminate|]).
      exact H.
    + exists [TAB], (lit "  "). repeat split.
  - repeat constructor.
    + vm_compute. intros H. repeat (destruct H as [H|H]; [discriminate|]).
      exact H.
    + exists (lit "  "), []. repeat split.
Defined.

(** X9.  Whenever a hunk is resolved, its placement is a non-empty range
    inside the buffer, as long as the number of search lines, at which
    every search line matches the buffer line at least in the tolerant
    comparison, and it carries at least one replacement line: an empty
    replace block is one empty line. *)
Theorem resolve_hunk_placement (file_lines : list StructuredLine)
    (num : nat) (h : pyval) (a : application) :
  resolve_hunk file_lines num h = inr a ->
  start a < end_ a /\ end_ a <= length file_lines /\
  replace_lines a <> [] /\
  exists s_blk,
    py_get h (lit "search_block") = inr (PyStr s_blk) /\
    end_ a = start a + length (block_lines s_blk) /\
    forall j s_line, block_lines s_blk !! j = Some s_line ->
      exists f_line, file_lines !! (start a + j) = Some f_line /\
                     contents_differ true f_line s_line = false.
Proof.
  intros Hres.
  pose proof (resolve_hunk_in_bounds _ _ _ _ Hres) as [Hse Hend].
  apply resolve_hunk_inr in Hres
    as (s_blk & r_blk & m & Hs & Hr & -> & Hloc).
  repeat split; [exact Hse | exact Hend | |].
  - simpl. unfold block_lines, re_split_newlines.
    destruct (re_split_go_cons [] r_blk) as (x & l & ->). discriminate.
  - exists s_blk. repeat split; [exact Hs|]. simpl.
    assert (Hm : In m (located file_lines (block_lines s_blk) true)).
    { destruct Hloc as [Hl|[_ Hl]].
      - apply located_exact_tolerant. rewrite Hl. now left.
      - rewrite Hl. now left. }
    apply list_elem_of_In, located_spec in Hm as (_ & _ & Hw).
    now apply window_matches_spec.
Qed.

Lemma resolve_hunk_placement_witness :
  replace_lines
    (mkApplication 1 2 (block_lines [])) <> [] /\
  resolve_hunk (buffer_lines (lit "foo" ++ [LF] ++ lit "  bar")) 1
    (hunk (lit "bar") []) = inr (mkApplication 1 2 (block_lines [])).
Proof.
  assert (H : resolve_hunk (buffer_lines (lit "foo" ++ [LF] ++ lit "  bar")) 1
                (hunk (lit "bar") []) = inr (mkApplication 1 2 (block_lines [])))
    by (vm_compute; reflexivity).
  split; [|exact H].
  exact (proj1 (proj2 (proj2 (resolve_hunk_placement _ _ _ _ H)))).
Defined.

(** ** The second loop as a function of the original buffer *)

Lemma descending_below_sorted upper apps :
  StronglySorted (fun a b => start b <= start a) apps ->
  ~ has_overlap apps ->
  Forall (fun a => start a < end_ a /\ end_ a <= upper) apps ->
  descending_below upper apps.
Proof.
  intros Hs. revert upper.
  induction Hs as [|a rest Hs IH Hle]; intros upper Hno Hin; simpl;
    [exact I|].
  apply Forall_cons in Hin as [[Hse He] Hin].
  repeat split; [exact Hse | exact He |].
  apply IH.
  - intros Ho. apply Hno. now apply overlap_later.
  - rewrite Forall_forall in Hle, Hin |- *. intros x Hx.
    destruct (Hin x Hx) as [Hx1 Hx2]. split; [exact Hx1|].
    destruct (Nat.le_gt_cases (end_ x) (start a)) as [|Hgt]; [assumption|].
    exfalso. apply Hno. eapply overlap_here; [exact Hx|].
    exists (start a). specialize (Hle x Hx). lia.
Qed.

Lemma descending_below_reverse_sorted (buffer : list StructuredLine) apps :
  Forall (fun a => start a < end_ a /\ end_ a <= length buffer) apps ->
  ~ some_pair_overlaps apps ->
  descending_below (length buffer) (sorted_by_start_reverse apps).
Proof.
  intros Hin Hno. apply descending_below_sorted.
  - apply sorted_by_start_reverse_sorted.
  - intros Ho. apply Hno, has_overlap_some_pair.
    eapply has_overlap_perm;
      [symmetry; apply sorted_by_start_reverse_perm|exact Ho].
  - now rewrite <- sorted_by_start_reverse_perm.
Qed.

Lemma spliced_lines_prefix buffer st a :
  start a < end_ a ->
  take (end_ a) st = take (end_ a) buffer ->
  spliced_lines st a = spliced_lines buffer a.
Proof.
  intros Hse Hpre. unfold spliced_lines.
  rewrite (new_lines_from_prefix buffer st) by exact Hpre.
  rewrite <- (lookup_take_lt st (end_ a)), <- (lookup_take_lt buffer (end_ a))
    by lia.
  now rewrite Hpre.
Qed.

Lemma apply_applications_assemble_from buffer apps :
  forall upper tail,
    upper <= length buffer ->
    descending_below upper apps ->
    apply_applications apps (take upper buffer ++ tail)
    = (inr tt, assemble buffer apps upper tail).
Proof.
  induction apps as [|a rest IH]; intros upper tail Hup Hd; simpl;
    [reflexivity|].
  destruct Hd as (Hse & He & Hd).
  assert (Hlen : length (take upper buffer) = upper)
    by (rewrite length_take; lia).
  assert (Hpre : take (end_ a) (take upper buffer ++ tail)
                 = take (end_ a) buffer).
  { rewrite take_app_le by lia. rewrite take_take. f_equal. lia. }
  unfold m_bind. rewrite apply_application_spec;
    [|exact Hse | rewrite length_app; lia].
  rewrite (spliced_lines_prefix buffer) by assumption.
  rewrite take_app_le by lia. rewrite take_take, Nat.min_l by lia.
  rewrite drop_app_le by lia.
  replace (drop (end_ a) (take upper buffer))
    with (take (upper - end_ a) (drop (end_ a) buffer)).
  2:{ rewrite take_drop_commute. do 2 f_equal. lia. }
  apply IH; [lia | exact Hd].
Qed.

(** X10.  For placements inside the buffer that pairwise share no line,
    the second loop raises nothing and leaves the list that is put
    together from the original buffer alone: the buffer lines outside the
    placements, in their order, and in the place of every placement its new
    lines, built from the original lines of its own range.  What an
    iteration writes is never read by a later one. *)
Theorem apply_applications_assemble (buffer : list StructuredLine)
    (apps : list application) :
  Forall (fun a => start a < end_ a /\ end_ a <= length buffer) apps ->
  ~ some_pair_overlaps apps ->
  apply_applications (sorted_by_start_reverse apps) buffer
  = (inr tt,
     assemble buffer (sorted_by_start_reverse apps) (length buffer) []).
Proof.
  intros Hin Hno.
  rewrite <- (apply_applications_assemble_from buffer _ (length buffer) []);
    [|reflexivity | now apply descending_below_reverse_sorted].
  now rewrite firstn_all, app_nil_r.
Qed.

Lemma apply_applications_assemble_witness :
  exists st,
    apply_applications
      (sorted_by_start_reverse
         [mkApplication 0 1 (block_lines (lit "x" ++ [LF] ++ lit "y"));
          mkApplication 2 3 (block_lines (lit "z"))])
      (buffer_lines (lit "a" ++ [LF] ++ lit " b" ++ [LF] ++ lit "c"))
    = (inr tt, st) /\
    map reconstruct st = [lit "x"; lit "y"; lit " b"; lit "z"].
Proof.
  eexists. split.
  - apply (apply_applications_assemble
             (buffer_lines (lit "a" ++ [LF] ++ lit " b" ++ [LF] ++ lit "c"))).
    + repeat constructor; vm_compute; lia.
    + intros (i & j & a & b & Hij & Hi & Hj & k & Ha & Hb).
      destruct i as [|[|i]], j as [|[|j]]; try discriminate;
        try contradiction;
        simpl in Hi, Hj; injection Hi as <-; injection Hj as <-;
        simpl in Ha, Hb; lia.
  - vm_compute. reflexivity.
Defined.

Lemma assemble_tail buffer apps :
  forall upper tail,
    assemble buffer apps upper tail = assemble buffer apps upper [] ++ tail.
Proof.
  induction apps as [|a rest IH]; intros upper tail; simpl.
  - now rewrite app_nil_r.
  - rewrite IH, (IH _ (_ ++ _ ++ [])), app_nil_r, <- !app_assoc.
    reflexivity.
Qed.

Lemma spliced_lines_length buffer a :
  length (spliced_lines buffer a) = length (replace_lines a).
Proof. apply new_lines_from_length. Qed.

Lemma descending_below_removed upper apps :
  descending_below upper apps ->
  sum_list_with (fun a => end_ a - start a) apps <= upper.
Proof.
  revert upper. induction apps as [|a rest IH]; intros upper; simpl; [lia|].
  intros (Hse & He & Hd). specialize (IH _ Hd). lia.
Qed.

Lemma assemble_length buffer apps :
  forall upper tail,
    upper <= length buffer ->
    descending_below upper apps ->
    length (assemble buffer apps upper tail)
    + sum_list_with (fun a => end_ a - start a) apps
    = upper + sum_list_with (fun a => length (replace_lines a)) apps
      + length tail.
Proof.
  induction apps as [|a rest IH]; intros upper tail Hup Hd; simpl.
  - rewrite length_app, length_take. lia.
  - destruct Hd as (Hse & He & Hd).
    specialize (IH (start a)
                  (spliced_lines buffer a
                   ++ take (upper - end_ a) (drop (end_ a) buffer) ++ tail)).
    rewrite !length_app, spliced_lines_length, length_take, length_drop in IH.
    specialize (IH ltac:(lia) Hd). lia.
Qed.

(** X11.  The number of lines after the second loop: the lines of the
    buffer, less the lines of the ranges, plus the replacement lines. *)
Theorem apply_applications_line_count (buffer : list StructuredLine)
    (apps : list application) :
  Forall (fun a => start a < end_ a /\ end_ a <= length buffer) apps ->
  ~ some_pair_overlaps apps ->
  exists st,
    apply_applications (sorted_by_start_reverse apps) buffer = (inr tt, st) /\
    length st + sum_list_with (fun a => end_ a - start a) apps
    = length buffer + sum_list_with (fun a => length (replace_lines a)) apps.
Proof.
  intros Hin Hno.
  exists (assemble buffer (sorted_by_start_reverse apps) (length buffer) []).
  split.
  - rewrite <- (apply_applications_assemble_from buffer _ (length buffer) []);
      [|reflexivity | now apply descending_below_reverse_sorted].
    now rewrite firstn_all, app_nil_r.
  - pose proof (assemble_length buffer (sorted_by_start_reverse apps)
                  (length buffer) [] (Nat.le_refl _)
                  (descending_below_reverse_sorted buffer apps Hin Hno))
    as Hl.
    assert (Hsum : forall f : application -> nat,
               sum_list_with f (sorted_by_start_reverse apps)
               = sum_list_with f apps).
    { intros f. now rewrite <- sorted_by_start_reverse_perm. }
    rewrite !Hsum in Hl. simpl in Hl. lia.
Qed.

Lemma apply_applications_line_count_witness :
  exists st,
    apply_applications
      (sorted_by_start_reverse
         [mkApplication 0 2 (block_lines (lit "x"));
          mkApplication 2 3 (block_lines (lit "y" ++ [LF] ++ lit "z"))])
      (buffer_lines (lit "a" ++ [LF] ++ lit "b" ++ [LF] ++ lit "c"))
    = (inr tt, st) /\
    length st + 3 = 3 + 3.
Proof.
  apply (apply_applications_line_count
           (buffer_lines (lit "a" ++ [LF] ++ lit "b" ++ [LF] ++ lit "c"))
           [mkApplication 0 2 (block_lines (lit "x"));
            mkApplication 2 3 (block_lines (lit "y" ++ [LF] ++ lit "z"))]).
  - repeat constructor; vm_compute; lia.
  - intros (i & j & a & b & Hij & Hi & Hj & k & Ha & Hb).
    destruct i as [|[|i]], j as [|[|j]]; try discriminate; try contradiction;
      simpl in Hi, Hj; injection Hi as <-; injection Hj as <-;
      simpl in Ha, Hb; lia.
Defined.

Lemma below_all upper apps i :
  descending_below upper apps -> upper <= i ->
  added_below apps i = sum_list_with (fun a => length (replace_lines a)) apps /\
  removed_below apps i = sum_list_with (fun a => end_ a - start a) apps.
Proof.
  unfold added_below, removed_below. revert upper.
  induction apps as [|a rest IH]; intros upper; simpl; [auto|].
  intros (Hse & He & Hd) Hi.
  destruct (IH (start a) Hd) as [-> ->]; [lia|].
  destruct (Nat.leb_spec (end_ a) i); [auto|lia].
Qed.

Lemma assemble_untouched buffer apps i :
  forall upper tail,
    upper <= length buffer ->
    descending_below upper apps ->
    i < upper ->
    Forall (fun a => ~ (start a <= i < end_ a)) apps ->
    removed_below apps i <= i /\
    assemble buffer apps upper tail
      !! (i + added_below apps i - removed_below apps i)
    = buffer !! i.
Proof.
  induction apps as [|a rest IH]; intros upper tail Hup Hd Hi Hout.
  - unfold added_below, removed_below. simpl. split; [lia|].
    rewrite Nat.add_0_r, Nat.sub_0_r.
    rewrite lookup_app_l by (rewrite length_take; lia).
    now apply lookup_take_lt.
  - destruct Hd as (Hse & He & Hd).
    apply Forall_cons in Hout as [Ha Hout].
    change (added_below (a :: rest) i)
      with ((if end_ a <=? i then length (replace_lines a) else 0)
            + added_below rest i).
    change (removed_below (a :: rest) i)
      with ((if end_ a <=? i then end_ a - start a else 0)
            + removed_below rest i).
    simpl assemble.
    destruct (Nat.leb_spec (end_ a) i) as [Hei|Hei].
    + destruct (below_all (start a) rest i Hd) as [-> ->]; [lia|].
      pose proof (descending_below_removed _ _ Hd) as Hrem.
      pose proof (assemble_length buffer rest (start a) []
                    ltac:(lia) Hd) as Hlen.
      simpl in Hlen. split; [lia|].
      rewrite assemble_tail.
      rewrite lookup_app_r by lia.
      rewrite lookup_app_r by (rewrite spliced_lines_length; lia).
      rewrite spliced_lines_length.
      rewrite lookup_app_l by (rewrite length_take, length_drop; lia).
      rewrite lookup_take_lt by lia. rewrite lookup_drop. f_equal. lia.
    + destruct (IH (start a)
                  (spliced_lines buffer a
                   ++ take (upper - end_ a) (drop (end_ a) buffer) ++ tail))
        as [Hr Hl]; [lia | exact Hd | lia | exact Hout |].
      split; [lia|]. exact Hl.
Qed.

(** X12.  The second loop leaves every buffer line outside the placements
    as it is: the line at index [i] of the buffer is in the resulting list
    at [i] shifted by the lines that the placements above it in the file
    (those ending at or before [i]) brought in and took out. *)
Theorem apply_applications_keeps_outside (buffer : list StructuredLine)
    (apps : list application) (i : nat) :
  Forall (fun a => start a < end_ a /\ end_ a <= length buffer) apps ->
  ~ some_pair_overlaps apps ->
  i < length buffer ->
  Forall (fun a => ~ (start a <= i < end_ a)) apps ->
  exists st,
    apply_applications (sorted_by_start_reverse apps) buffer = (inr tt, st) /\
    removed_below apps i <= i /\
    st !! (i + added_below apps i - removed_below apps i) = buffer !! i.
Proof.
  intros Hin Hno Hi Hout.
  exists (assemble buffer (sorted_by_start_reverse apps) (length buffer) []).
  split.
  - rewrite <- (apply_applications_assemble_from buffer _ (length buffer) []);
      [|reflexivity | now apply descending_below_reverse_sorted].
    now rewrite firstn_all, app_nil_r.
  - assert (Hsum : forall f : application -> nat,
               sum_list_with f (sorted_by_start_reverse apps)
               = sum_list_with f apps).
    { intros f. now rewrite <- sorted_by_start_reverse_perm. }
    destruct (assemble_untouched buffer (sorted_by_start_reverse apps) i
                (length buffer) [] (Nat.le_refl _)
                (descending_below_reverse_sorted buffer apps Hin Hno) Hi)
      as [Hr Hl].
    { now rewrite <- sorted_by_start_reverse_perm. }
    unfold added_below, removed_below in *.
    repeat rewrite Hsum in Hr. repeat rewrite Hsum in Hl. auto.
Qed.

Lemma apply_applications_keeps_outside_witness :
  exists st,
    apply_applications
      (sorted_by_start_reverse
         [mkApplication 0 1 (block_lines (lit "x" ++ [LF] ++ lit "y"));
          mkApplication 2 3 (block_lines (lit "z"))])
      (buffer_lines (lit "a" ++ [LF] ++ lit " b" ++ [LF] ++ lit "c"))
    = (inr tt, st) /\
    st !! 2 = Some (StructuredLine_init (lit " b")).
Proof.
  destruct (apply_applications_keeps_outside
              (buffer_lines (lit "a" ++ [LF] ++ lit " b" ++ [LF] ++ lit "c"))
              [mkApplication 0 1 (block_lines (lit "x" ++ [LF] ++ lit "y"));
               mkApplication 2 3 (block_lines (lit "z"))] 1)
    as (st & Hrun & _ & Hl).
  - repeat constructor; vm_compute; lia.
  - intros (i & j & a & b & Hij & Hi & Hj & k & Ha & Hb).
    destruct i as [|[|i]], j as [|[|j]]; try discriminate; try contradiction;
      simpl in Hi, Hj; injection Hi as <-; injection Hj as <-;
      simpl in Ha, Hb; lia.
  - vm_compute. lia.
  - repeat constructor; simpl; lia.
  - exists st. split; [exact Hrun | exact Hl].
Defined.

(** ** [check_overlaps] and the order of the placements *)

Lemma check_overlaps_has_overlap apps :
  Forall (fun a => start a < end_ a) apps ->
  check_overlaps apps = true <-> has_overlap apps.
Proof.
  intros Hne.
  assert (Hne' : Forall (fun a => start a < end_ a) (sorted_by_start apps)).
  { now rewrite <- sorted_by_start_perm. }
  rewrite check_overlaps_adjacent. split.
  - intros Hadj. eapply has_overlap_perm;
      [symmetry; apply sorted_by_start_perm|].
    apply adjacent_overlap_has_overlap; auto using sorted_by_start_sorted.
  - intros Ho.
    destruct (adjacent_overlap (sorted_by_start apps)) eqn:Hadj;
      [reflexivity|].
    exfalso. eapply adjacent_overlap_false_no_overlap; eauto.
    eapply has_overlap_perm; [apply sorted_by_start_perm|exact Ho].
Qed.

(** X13.  The verdict of [check_overlaps] on placements with
    [start < end] does not depend on the order in which they are given. *)
Theorem check_overlaps_permutation (apps apps' : list application) :
  Forall (fun a => start a < end_ a) apps ->
  Permutation apps apps' ->
  check_overlaps apps' = check_overlaps apps.
Proof.
  intros Hne Hp.
  assert (Hne' : Forall (fun a => start a < end_ a) apps')
    by now rewrite <- Hp.
  destruct (check_overlaps apps) eqn:Hc.
  - apply check_overlaps_has_overlap; [exact Hne'|].
    eapply has_overlap_perm; [exact Hp|].
    now apply check_overlaps_has_overlap.
  - apply not_true_is_false. intros Hc'.
    apply check_overlaps_has_overlap in Hc'; [|exact Hne'].
    apply (has_overlap_perm _ _ (Permutation_sym Hp)) in Hc'.
    apply check_overlaps_has_overlap in Hc'; [congruence|exact Hne].
Qed.

Lemma check_overlaps_permutation_witness :
  check_overlaps [mkApplication 1 5 []; mkApplication 4 6 [];
                  mkApplication 0 1 []]
  = check_overlaps [mkApplication 0 1 []; mkApplication 1 5 [];
                    mkApplication 4 6 []].
Proof.
  apply (check_overlaps_permutation
           [mkApplication 0 1 []; mkApplication 1 5 []; mkApplication 4 6 []]
           [mkApplication 1 5 []; mkApplication 4 6 []; mkApplication 0 1 []]).
  - repeat constructor.
  - apply (Permutation_cons_append
             [mkApplication 1 5 []; mkApplication 4 6 []]
             (mkApplication 0 1 [])).
Defined.

(** ** [apply_patch_text]: the order of the hunks *)

Lemma resolve_hunk_num file_lines n n' h a :
  resolve_hunk file_lines n h = inr a ->
  resolve_hunk file_lines n' h = inr a.
Proof.
  intros (s_blk & r_blk & m & Hs & Hr & -> & Hloc)%resolve_hunk_inr.
  rewrite (resolve_hunk_located _ _ _ _ _ Hs Hr).
  destruct Hloc as [->|[-> ->]]; reflexivity.
Qed.

Lemma placements_of_Forall2 file_lines hunks idx apps :
  placements_of file_lines hunks idx apps ->
  Forall2 (fun h a => forall n, resolve_hunk file_lines n h = inr a)
    hunks apps.
Proof.
  intros [Hlen Hall]. apply Forall2_same_length_lookup_2; [auto|].
  intros k h a Hh Ha n. destruct (Hall k h Hh) as (a' & Ha' & Hres).
  assert (a' = a) as -> by congruence.
  eapply resolve_hunk_num; eauto.
Qed.

Lemma resolve_all_Forall2 file_lines hunks apps :
  Forall2 (fun h a => forall n, resolve_hunk file_lines n h = inr a)
    hunks apps ->
  forall idx acc,
    resolve_all file_lines hunks idx acc = inr (acc ++ apps).
Proof.
  induction 1 as [|h a hunks apps Hh _ IH]; intros idx acc; simpl.
  - now rewrite app_nil_r.
  - rewrite Hh. simpl. rewrite IH, <- app_assoc. reflexivity.
Qed.

Lemma Forall2_resolve_in_bounds file_lines hunks apps :
  Forall2 (fun h a => forall n, resolve_hunk file_lines n h = inr a)
    hunks apps ->
  Forall (fun a => start a < end_ a /\ end_ a <= length file_lines) apps.
Proof.
  induction 1 as [|h a hunks apps Hh _ IH]; constructor; [|exact IH].
  eapply resolve_hunk_in_bounds. apply (Hh 0).
Qed.

(** Without overlap the descending order of the starts is strict. *)
Lemma sorted_reverse_strict apps :
  Forall (fun a => start a < end_ a) apps ->
  ~ has_overlap apps ->
  StronglySorted (fun a b => start b <= start a) apps ->
  StronglySorted (fun a b => start b < start a) apps.
Proof.
  intros Hne Hno Hs. induction Hs as [|a rest Hs IH Hle]; [constructor|].
  apply Forall_cons in Hne as [Ha Hne].
  constructor.
  - apply IH; [exact Hne|]. intros Ho. apply Hno. now apply overlap_later.
  - rewrite Forall_forall in Hle, Hne |- *. intros b Hb.
    specialize (Hle b Hb). specialize (Hne b Hb).
    destruct (Nat.eq_dec (start b) (start a)) as [Heq|]; [|lia].
    exfalso. apply Hno. eapply overlap_here; [exact Hb|].
    exists (start a). lia.
Qed.

Lemma strictly_sorted_unique (l l' : list application) :
  StronglySorted (fun a b => start b < start a) l ->
  StronglySorted (fun a b => start b < start a) l' ->
  Permutation l l' -> l = l'.
Proof.
  intros Hs. revert l'.
  induction Hs as [|x xs Hs IH Hx]; intros l' Hs' Hp.
  - now apply Permutation_nil in Hp.
  - destruct Hs' as [|y ys Hs' Hy].
    { symmetry in Hp. now apply Permutation_nil in Hp. }
    assert (x = y) as ->.
    { assert (Hxin : In x (y :: ys))
        by (eapply Permutation_in; [exact Hp | now left]).
      assert (Hyin : In y (x :: xs))
        by (eapply Permutation_in; [symmetry; exact Hp | now left]).
      destruct Hxin as [->|Hxin]; [reflexivity|].
      destruct Hyin as [->|Hyin]; [reflexivity|].
      rewrite List.Forall_forall in Hx, Hy.
      specialize (Hx y Hyin). specialize (Hy x Hxin). lia. }
    f_equal. apply IH; [exact Hs'|].
    eapply Permutation_cons_inv; eauto.
Qed.

Lemma sorted_by_start_reverse_permutation apps apps' :
  Forall (fun a => start a < end_ a) apps ->
  ~ has_overlap apps ->
  Permutation apps apps' ->
  sorted_by_start_reverse apps' = sorted_by_start_reverse apps.
Proof.
  intros Hne Hno Hp.
  assert (Hq : Permutation (sorted_by_start_reverse apps')
                 (sorted_by_start_reverse apps)).
  { rewrite <- !sorted_by_start_reverse_perm. now symmetry. }
  apply strictly_sorted_unique; [| |exact Hq].
  - apply sorted_reverse_strict.
    + now rewrite <- sorted_by_start_reverse_perm, <- Hp.
    + intros Ho. apply Hno.
      eapply has_overlap_perm; [|exact Ho].
      rewrite <- sorted_by_start_reverse_perm. now symmetry.
    + apply sorted_by_start_reverse_sorted.
  - apply sorted_reverse_strict.
    + now rewrite <- sorted_by_start_reverse_perm.
    + intros Ho. apply Hno.
      eapply has_overlap_perm; [|exact Ho].
      symmetry. apply sorted_by_start_reverse_perm.
    + apply sorted_by_start_reverse_sorted.
Qed.

(** X14.  A patch that applies gives the same text whatever the order of
    its hunks: if [apply_patch_text] returns a text for a hunk list, it
    returns the same text for every rearrangement of the list. *)
Theorem apply_patch_text_hunk_order (text : pystr)
    (patch_obj patch_obj' : pyval) (hunks hunks' : list pyval)
    (out : pystr) :
  py_get patch_obj (lit "hunks") = inr (PyList hunks) ->
  py_get patch_obj' (lit "hunks") = inr (PyList hunks') ->
  Permutation hunks hunks' ->
  apply_patch_text text patch_obj = inr out ->
  apply_patch_text text patch_obj' = inr out.
Proof.
  intros Hh Hh' Hp. unfold apply_patch_text.
  rewrite (run_apply_patch_text_phases _ _ _ Hh),
    (run_apply_patch_text_phases _ _ _ Hh').
  destruct (resolve_all (buffer_lines text) hunks 0 []) as [e|apps] eqn:Hres;
    [discriminate|].
  apply resolve_all_inr in Hres as (apps0 & -> & Hpl). simpl.
  apply placements_of_Forall2 in Hpl.
  destruct (Permutation_Forall2 Hp Hpl) as (apps' & Hpa & Hpl').
  rewrite (resolve_all_Forall2 _ _ _ Hpl'). simpl.
  pose proof (Forall2_resolve_in_bounds _ _ _ Hpl) as Hin.
  assert (Hne : Forall (fun a => start a < end_ a) apps0).
  { eapply Forall_impl; [exact Hin|]. simpl. tauto. }
  destruct (check_overlaps apps0) eqn:Hc; [discriminate|].
  assert (Hno : ~ has_overlap apps0).
  { intros Ho. apply check_overlaps_has_overlap in Ho;
      [congruence|exact Hne]. }
  assert (Hc' : check_overlaps apps' = false).
  { apply not_true_is_false. intros Ho. apply Hno.
    apply check_overlaps_has_overlap in Ho; [|now rewrite <- Hpa].
    eapply has_overlap_perm; [symmetry; exact Hpa | exact Ho]. }
  rewrite Hc'.
  rewrite (sorted_by_start_reverse_permutation apps0 apps' Hne); auto.
Qed.

Lemma apply_patch_text_hunk_order_witness :
  apply_patch_text (lit "a" ++ [LF] ++ lit "b" ++ [LF] ++ lit "c")
    (patch [hunk (lit "a") (lit "x" ++ [LF] ++ lit "y");
            hunk (lit "c") (lit "z")])
  = inr (lit "x" ++ [LF] ++ lit "y" ++ [LF] ++ lit "b" ++ [LF] ++ lit "z").
Proof.
  apply (apply_patch_text_hunk_order
           (lit "a" ++ [LF] ++ lit "b" ++ [LF] ++ lit "c")
           (patch [hunk (lit "c") (lit "z");
                   hunk (lit "a") (lit "x" ++ [LF] ++ lit "y")])
           (patch [hunk (lit "a") (lit "x" ++ [LF] ++ lit "y");
                   hunk (lit "c") (lit "z")])
           [hunk (lit "c") (lit "z");
            hunk (lit "a") (lit "x" ++ [LF] ++ lit "y")]
           [hunk (lit "a") (lit "x" ++ [LF] ++ lit "y");
            hunk (lit "c") (lit "z")]).
  - reflexivity.
  - reflexivity.
  - apply perm_swap.
  - vm_compute. reflexivity.
Defined.



(** ** [apply_patch_text]: the exceptions *)





(** ** [StructuredLine]: the fallback branch *)

Lemma forallb_is_dot_split line :
  forallb is_dot line = false ->
  exists pre post, line = pre ++ LF :: post /\ forallb is_dot pre = true.
Proof.
  induction line as [|c line IH]; simpl; [discriminate|].
  destruct (is_dot c) eqn:Hc; simpl.
  - intros (pre & post & -> & Hpre)%IH. exists (c :: pre), post.
    simpl. now rewrite Hc.
  - intros _. exists [], line. split; [|reflexivity].
    unfold is_dot in Hc. apply negb_false_iff, N.eqb_eq in Hc as ->.
    reflexivity.
Qed.

(** X17.  The pattern of [StructuredLine] fails, and the object falls back
    to an empty indent, the whole line as content and an empty trailing
    part, exactly when the line has a line feed in front of its last
    character. *)
Theorem StructuredLine_init_fallback (line : pystr) :
  (re_match_line line = None <->
   exists pre post, line = pre ++ LF :: post /\ post <> []) /\
  (re_match_line line = None ->
   StructuredLine_init line = mkStructuredLine line [] line []).
Proof.
  split; [|intros H; unfold StructuredLine_init; now rewrite H].
  split.
  - intros Hnone.
    destruct (forallb is_dot line) eqn:Hd.
    { apply re_match_line_complete in Hd as [x Hx]. congruence. }
    apply forallb_is_dot_split in Hd as (pre & post & -> & Hpre).
    exists pre, post. split; [reflexivity|]. intros ->.
    assert (Hm : is_Some (re_match_line (pre ++ [LF]))).
    { unfold re_match_line.
      destruct (lazy_star_complete is_dot (greedy_star is_blank at_dollar)
                  pre [LF] ([], tt) Hpre eq_refl) as [x Hx].
      destruct (greedy_star_stop is_blank _ _ _ Hx)
        as [[m1 [m2 [m3 u]]] ->].
      eauto. }
    destruct Hm as [x Hx]. congruence.
  - intros (pre & post & -> & Hpost).
    destruct (re_match_line (pre ++ LF :: post)) as [[[g1 g2] g3]|] eqn:Hm;
      [exfalso|reflexivity].
    apply re_match_line_sound in Hm as (rest & Hline & Hrest & H1 & H2 & H3).
    assert (Hd : forallb is_dot (g1 ++ g2 ++ g3) = true).
    { rewrite !forallb_app, H2, !forallb_blank_dot; auto. }
    assert (Hin : In LF (g1 ++ g2 ++ g3)).
    { destruct post as [|p post _] using rev_ind; [contradiction|].
      destruct Hrest as [->| ->].
      - rewrite app_nil_r in Hline.
        rewrite <- Hline, in_app_iff. right. now left.
      - change (pre ++ LF :: post ++ [p])
          with (pre ++ (LF :: post) ++ [p]) in Hline.
        rewrite !app_assoc in Hline. apply app_inj_tail in Hline as [Hl _].
        rewrite <- !app_assoc in Hl. rewrite <- Hl, in_app_iff.
        right. now left. }
    now apply forallb_is_dot_no_LF in Hd.
Qed.

(** ** The buffer and the blocks are split alike *)

Lemma re_split_go_lf s :
  str_contains [CR; LF] s = false ->
  forall cur, re_split_go cur s = split_go [LF] 0 cur s.
Proof.
  induction s as [|c s IH]; intros Hc cur; [reflexivity|].
  cbn [str_contains] in Hc. apply orb_false_elim in Hc as [Hsw Hc].
  change (split_go [LF] 0 cur (c :: s))
    with (if starts_with [LF] (c :: s)
          then cur :: split_go [LF] 0 [] s
          else split_go [LF] 0 (cur ++ [c]) s).
  cbn [re_split_go starts_with] in *.
  destruct (N.eqb_spec c CR) as [->|Hcr].
  - change (LF =? CR)%N with false. cbn [andb].
    destruct s as [|d s2]; [now rewrite IH|].
    destruct (N.eqb_spec d LF) as [->|Hd].
    + cbn in Hsw. discriminate.
    + now rewrite IH.
  - rewrite (N.eqb_sym LF c), andb_true_r.
    destruct (c =? LF)%N; now rewrite IH.
Qed.

Lemma re_split_go_crlf s :
  crlf_only false s = true ->
  forall cur, re_split_go cur s = split_go [CR; LF] 0 cur s.
Proof.
  remember (length s) as n eqn:Hn. revert s Hn.
  induction n as [n IH] using lt_wf_ind. intros [|c s1] Hn Hc cur;
    [reflexivity|].
  simpl in Hn.
  change (split_go [CR; LF] 0 cur (c :: s1))
    with (if starts_with [CR; LF] (c :: s1)
          then cur :: split_go [CR; LF] 1 [] s1
          else split_go [CR; LF] 0 (cur ++ [c]) s1).
  cbn [crlf_only] in Hc. apply andb_prop in Hc as [Hlf Hc].
  cbn [re_split_go starts_with].
  destruct (N.eqb_spec c CR) as [->|Hcr].
  - rewrite N.eqb_refl. cbn [andb].
    destruct s1 as [|d s2].
    + cbn [starts_with]. apply (IH 0); [lia | reflexivity | reflexivity].
    + cbn [starts_with]. rewrite (N.eqb_sym LF d), andb_true_r.
      destruct (N.eqb_spec d LF) as [->|Hd].
      * f_equal. cbn [split_go]. simpl in Hn.
        apply (IH (length s2)); [lia | reflexivity |].
        cbn [crlf_only] in Hc. now apply andb_prop in Hc as [_ Hc].
      * apply (IH (length (d :: s2))); [lia | reflexivity |].
        rewrite <- Hc. symmetry. apply crlf_only_prev. simpl. congruence.
  - rewrite (proj2 (N.eqb_neq CR c)) by congruence. cbn [andb].
    destruct (N.eqb_spec c LF) as [->|_]; [discriminate|].
    apply (IH (length s1)); [lia | reflexivity | exact Hc].
Qed.

(** X18.  For a text whose line endings are not mixed, the split of a
    block with [re.split] and the split of the buffer on the detected
    newline give the same lines: taken as a search block, the text is
    tokenized like the buffer. *)
Theorem block_lines_buffer_lines (text : pystr) :
  str_contains [CR; LF] text = false \/ crlf_only false text = true ->
  block_lines text = buffer_lines text.
Proof.
  intros Hmix. unfold block_lines, buffer_lines, re_split_newlines.
  f_equal. unfold detect_newline, split_lines_preserve, str_split.
  destruct (str_contains [CR; LF] text) eqn:Hc.
  - destruct Hmix as [|Hs]; [discriminate|].
    destruct text; [reflexivity|]. now apply re_split_go_crlf.
  - destruct text; [reflexivity|]. now apply re_split_go_lf.
Qed.

Lemma block_lines_buffer_lines_witness :
  block_lines (lit "a " ++ [LF] ++ lit " b" ++ [CR] ++ lit "c" ++ [LF])
  = buffer_lines (lit "a " ++ [LF] ++ lit " b" ++ [CR] ++ lit "c" ++ [LF]).
Proof.
  apply (block_lines_buffer_lines
           (lit "a " ++ [LF] ++ lit " b" ++ [CR] ++ lit "c" ++ [LF])).
  left. vm_compute. reflexivity.
Defined.

(** ** [_compute_default_version]: the proposed version *)

Lemma scan_versions_max version_of names :
  forall max,
    match scan_versions version_of names max with
    | None =>
        max = None /\ Forall (fun fn => version_of fn = None) names
    | Some top =>
        (forall v, max = Some v -> version_le v top) /\
        (forall fn v, In fn names -> version_of fn = Some v ->
                      version_le v top)
    end.
Proof.
  induction names as [|fn rest IH]; intros max; simpl.
  - destruct max as [v|]; [|auto]. split; [|intros ? ? []].
    intros ? [= <-]. now left.
  - destruct (version_of fn) as [[major minor]|] eqn:Hv.
    + specialize (IH (if newer max major minor
                      then Some (major, minor) else max)).
      destruct (scan_versions version_of rest _) as [top|].
      * destruct IH as [Hmax Hrest].
        assert (Hcur : version_le (major, minor) top /\
                       forall v, max = Some v -> version_le v top).
        { destruct max as [[M m]|]; simpl in Hmax.
          - destruct ((M <? major) || ((major =? M) && (m <? minor)))
              eqn:Hn.
            + pose proof (Hmax _ eq_refl) as Ht. split; [exact Ht|].
              intros v [= <-]. right.
              apply orb_prop in Hn as [Hn%Nat.ltb_lt|[He%Nat.eqb_eq Hl%Nat.ltb_lt]%andb_prop];
                destruct Ht as [<-|[Ht|[Ht1 Ht2]]]; unfold version_lt;
                simpl in *; lia.
            + pose proof (Hmax _ eq_refl) as Ht.
              apply orb_false_elim in Hn as [Hn1%Nat.ltb_ge Hn2].
              split; [|intros v [= <-]; exact Ht].
              destruct (Nat.eq_dec major M) as [->|Hne].
              * rewrite Nat.eqb_refl in Hn2. simpl in Hn2.
                apply Nat.ltb_ge in Hn2.
                destruct (Nat.eq_dec minor m) as [->|]; [exact Ht|].
                right. destruct Ht as [<-|[Ht|[Ht1 Ht2]]];
                  unfold version_lt; simpl in *; lia.
              * right. destruct Ht as [<-|[Ht|[Ht1 Ht2]]];
                  unfold version_lt; simpl in *; lia.
          - split; [apply Hmax; reflexivity|]. discriminate. }
        destruct Hcur as [Hcur Hmax']. split; [exact Hmax'|].
        intros fn' v [->|Hin] Hfn; [|eauto].
        rewrite Hv in Hfn. now injection Hfn as <-.
      * destruct IH as [Hn _]. exfalso.
        destruct max as [[M m]|]; simpl in Hn; [|discriminate].
        destruct ((M <? major) || ((major =? M) && (m <? minor)));
          discriminate.
    + specialize (IH max).
      destruct (scan_versions version_of rest max) as [top|].
      * destruct IH as [Hmax Hrest]. split; [exact Hmax|].
        intros fn' v [->|Hin] Hfn; [congruence|eauto].
      * destruct IH as [-> Hall]. split; [reflexivity|].
        now constructor.
Qed.

Lemma scan_versions_none version_of names :
  Forall (fun fn => version_of fn = None) names ->
  forall max, scan_versions version_of names max = max.
Proof.
  induction 1 as [|fn rest Hfn _ IH]; intros max; simpl; [reflexivity|].
  now rewrite Hfn.
Qed.

(** X19.  The version that [_compute_default_version] proposes has a minor
    number below ten and is strictly greater, in the order of major and
    minor, than the version of every directory entry that matches the
    pattern; when no entry matches, or when the directory cannot be
    listed, it is 0.0. *)
Theorem compute_default_version_newer
    (version_of : pystr -> option (nat * nat)) (names : list pystr) :
  snd (compute_default_version version_of (Some names)) < 10 /\
  (forall fn v, In fn names -> version_of fn = Some v ->
     version_lt v (compute_default_version version_of (Some names))) /\
  (Forall (fun fn => version_of fn = None) names ->
   compute_default_version version_of (Some names) = (0, 0)) /\
  compute_default_version version_of None = (0, 0).
Proof.
  unfold compute_default_version.
  pose proof (scan_versions_max version_of names None) as H.
  destruct (scan_versions version_of names None) as [[M m]|] eqn:Hscan.
  - destruct H as [_ Hall].
    repeat split.
    + destruct (Nat.leb_spec 10 (m + 1)); simpl; lia.
    + intros fn v Hin Hv. specialize (Hall fn v Hin Hv).
      destruct (Nat.leb_spec 10 (m + 1));
        destruct Hall as [->|[Ht|[Ht1 Ht2]]]; unfold version_lt;
        simpl in *; lia.
    + intros Hnone. rewrite (scan_versions_none _ _ Hnone) in Hscan.
      discriminate.
  - destruct H as [_ Hnone]. repeat split; simpl; [lia|].
    intros fn v Hin Hv. rewrite List.Forall_forall in Hnone.
    rewrite (Hnone fn Hin) in Hv. discriminate.
Qed.

(** ** [_handle_success]: the cleaned answer *)

Lemma str_contains_app_l sub a b :
  str_contains sub (a ++ b) = false -> str_contains sub b = false.
Proof.
  induction a as [|c a IH]; simpl; [auto|].
  intros [_ H]%orb_false_elim. auto.
Qed.

Lemma str_contains_app_r sub b c :
  str_contains sub (b ++ c) = false -> str_contains sub b = false.
Proof.
  induction b as [|x b IH]; simpl.
  - intros H. destruct sub; [|reflexivity].
    destruct c; simpl in H; discriminate.
  - intros [Hs H]%orb_false_elim. rewrite (IH H), orb_false_r.
    destruct (starts_with sub (x :: b)) eqn:Hsw; [|reflexivity].
    apply (starts_with_app_r _ _ c) in Hsw. simpl in Hsw. congruence.
Qed.

Lemma lstrip_ws_run_nil s : ws_run (lstrip s) = [].
Proof.
  induction s as [|c s IH]; simpl; [reflexivity|].
  destruct (py_isspace c) eqn:Hc; [exact IH|]. simpl. now rewrite Hc.
Qed.

Lemma lstrip_suffix s : exists a, s = a ++ lstrip s.
Proof. exists (ws_run s). apply ws_run_lstrip. Qed.

(** [strip] cuts a part out of the string, without whitespace at its
    ends. *)
Lemma strip_part s :
  (exists a c, s = a ++ strip s ++ c) /\
  ws_run (strip s) = [] /\ ws_run (rev (strip s)) = [].
Proof.
  unfold strip.
  destruct (lstrip_suffix s) as [a Ha].
  destruct (lstrip_suffix (rev (lstrip s))) as [c Hc].
  assert (Hs : lstrip s = rev (lstrip (rev (lstrip s))) ++ rev c).
  { rewrite <- rev_app_distr, <- Hc. now rewrite rev_involutive. }
  split; [|split].
  - exists a, (rev c). now rewrite <- Hs.
  - set (t := lstrip (rev (lstrip s))) in *.
    destruct (rev t) as [|x r] eqn:Hr; [reflexivity|].
    simpl. destruct (py_isspace x) eqn:Hx; [exfalso|reflexivity].
    pose proof (lstrip_ws_run_nil s) as Hl. rewrite Hs in Hl.
    simpl in Hl. rewrite Hx in Hl. discriminate.
  - rewrite rev_involutive. apply lstrip_ws_run_nil.
Qed.

Lemma lazy_star_no_fence s g u :
  lazy_star (fun _ => true) closing_fence s = Some (g, u) ->
  (exists rest, s = g ++ rest) /\ str_contains FENCE g = false.
Proof.
  intros Hl.
  pose proof (lazy_star_sound _ _ _ _ _ Hl) as (rest & -> & _ & _).
  split; [eauto|].
  apply str_contains_suffixes; [discriminate|].
  intros a t -> Ht.
  pose proof (lazy_star_minimal _ _ _ _ _ (length a) Hl) as Hmin.
  rewrite length_app in Hmin.
  assert (Hlt : length a < length a + length t).
  { destruct t; [contradiction|simpl; lia]. }
  specialize (Hmin Hlt).
  rewrite <- app_assoc, drop_app_length in Hmin.
  unfold closing_fence in Hmin.
  destruct (starts_with FENCE (t ++ rest)) eqn:Hsw; [discriminate|].
  destruct (starts_with FENCE t) eqn:Hst; [|reflexivity].
  apply (starts_with_app_r _ _ rest) in Hst. congruence.
Qed.

Lemma after_lang_part s g :
  after_lang s = Some g ->
  (exists a c, s = a ++ g ++ c) /\ str_contains FENCE g = false.
Proof.
  destruct s as [|x s]; simpl; [discriminate|].
  destruct (py_isspace x); [|discriminate].
  destruct (lazy_star _ _ s) as [[g1 u]|] eqn:Hl; [|discriminate].
  intros [= <-]. apply lazy_star_no_fence in Hl as [[rest ->] Hg].
  split; [|exact Hg]. exists [x], rest. reflexivity.
Qed.

Lemma opt_lang_part is_word s g :
  opt_lang is_word s = Some g ->
  (exists a c, s = a ++ g ++ c) /\ str_contains FENCE g = false.
Proof.
  unfold opt_lang. destruct s as [|x s]; [apply after_lang_part|].
  destruct (is_word x); [|apply after_lang_part].
  destruct (greedy_star is_word after_lang s) as [[w g1]|] eqn:Hg;
    [|apply after_lang_part].
  intros [= <-].
  apply greedy_star_sound in Hg as (rest & -> & _ & Ha).
  apply after_lang_part in Ha as [(a & c & ->) Hno].
  split; [|exact Hno]. exists (x :: w ++ a), c.
  simpl. now rewrite <- !app_assoc.
Qed.

Lemma search_fence_part is_word s g :
  search_fence is_word s = Some g ->
  (exists a c, s = a ++ g ++ c) /\ str_contains FENCE g = false.
Proof.
  induction s as [|x s IH]; simpl.
  - unfold match_fence. simpl. discriminate.
  - destruct (match_fence is_word (x :: s)) as [g1|] eqn:Hm.
    + intros [= <-]. unfold match_fence in Hm.
      destruct (starts_with FENCE (x :: s)) eqn:Hsw; [|discriminate].
      apply opt_lang_part in Hm as [(a & c & Hd) Hno].
      split; [|exact Hno].
      exists (take (length FENCE) (x :: s) ++ a), c.
      rewrite <- app_assoc, <- Hd. now rewrite take_drop.
    + intros [(a & c & ->) Hno]%IH. split; [|exact Hno].
      exists (x :: a), c. reflexivity.
Qed.

(** X20.  Whatever the class of word characters, the cleaned answer is a
    contiguous part of the answer, and it is either the answer itself or a
    text that holds no fence and has no whitespace at its ends. *)
Theorem clean_result_part (is_word : char -> bool) (result : pystr) :
  (exists a c, result = a ++ clean_result is_word result ++ c) /\
  (clean_result is_word result = result \/
   (str_contains FENCE (clean_result is_word result) = false /\
    ws_run (clean_result is_word result) = [] /\
    ws_run (rev (clean_result is_word result)) = [])).
Proof.
  unfold clean_result.
  assert (Hid : exists a c : pystr, result = a ++ result ++ c).
  { exists [], []. now rewrite app_nil_r. }
  destruct (str_contains FENCE result); [|auto].
  destruct (search_fence is_word result) as [g|] eqn:Hs; [|auto].
  apply search_fence_part in Hs as [(a & c & ->) Hno].
  destruct (strip_part g) as ((a' & c' & Hg) & Hl & Hr).
  split.
  - exists (a ++ a'), (c' ++ c). rewrite Hg at 1.
    now rewrite <- !app_assoc.
  - right. split; [|auto]. rewrite Hg in Hno.
    now apply str_contains_app_l, str_contains_app_r in Hno.
Qed.
